(** * The template language reader of cheltuieli-app/language

    A shallow embedding of [src/index.ts]: the attribute resolver
    [fromAttributes], the tag-dispatching tree walker [push], the
    [Parser] class with its two collections, and [parse], followed by
    the properties of the walker and of the reader as a whole. *)

From Stdlib Require Import Ascii String.
From stdpp Require Import base gmap list strings pretty.

Set Warnings "-register-all".

(** ** Strings

    A string is a sequence of code units; the embedding keeps the code
    units below 256, one [ascii] each.  [toLowerCase] and [trim] are the
    two built-ins the reader calls, written out on that range. *)

Module JSString.

Definition code (c : ascii) : N := N_of_ascii c.

(** White space and line terminators of the language below 256:
    TAB, LF, VT, FF, CR, SP and NBSP. *)
Definition isWhiteSpace (c : ascii) : bool :=
  let n := code c in
  ((9 <=? n) && (n <=? 13) || (n =? 32) || (n =? 160))%N.

Definition isUpper (c : ascii) : bool :=
  let n := code c in
  ((65 <=? n) && (n <=? 90)
   || (192 <=? n) && (n <=? 222) && negb (n =? 215))%N.

Definition lowerChar (c : ascii) : ascii :=
  if isUpper c then ascii_of_N (code c + 32) else c.

Fixpoint toLowerCase (s : string) : string :=
  match s with
  | EmptyString => EmptyString
  | String c s' => String (lowerChar c) (toLowerCase s')
  end.

Fixpoint trimStart (s : string) : string :=
  match s with
  | EmptyString => EmptyString
  | String c s' => if isWhiteSpace c then trimStart s' else s
  end.

Fixpoint trimEnd (s : string) : string :=
  match s with
  | EmptyString => EmptyString
  | String c s' =>
      match trimEnd s' with
      | EmptyString => if isWhiteSpace c then EmptyString else String c EmptyString
      | r => String c r
      end
  end.

Definition trim (s : string) : string := trimEnd (trimStart s).

End JSString.

Import JSString.

(** ** Values

    The reader only handles strings and [undefined]; [None] stands for
    [undefined].  [truthy] is the test behind [if (value)], [a || b] and
    [filter(a => a.value)]: a string is truthy unless it is empty. *)

Definition truthy (v : option string) : bool :=
  match v with
  | Some (String _ _) => true
  | _ => false
  end.

Definition or_else (a b : option string) : option string :=
  if truthy a then a else b.

Infix "|||" := or_else (at level 50, left associativity).

(** ** The document tree

    What the external parser hands over.  [Text] covers text and CDATA
    nodes, [Misc] covers comments and processing instructions.  An
    attribute set maps each attribute name to its value. *)

Abbreviation NamedNodeMap := (gmap string string).

Inductive Node : Type :=
| Element (tagName : string) (attributes : NamedNodeMap) (childNodes : list Node)
| Text (data : string)
| Misc (data : string).

(** [tagName] is a string on elements only. *)
Definition tagName (n : Node) : option string :=
  match n with
  | Element t _ _ => Some t
  | _ => None
  end.

(** Only read on elements; [undefined] elsewhere. *)
Definition attributes (n : Node) : NamedNodeMap :=
  match n with
  | Element _ a _ => a
  | _ => ∅
  end.

Definition childNodes (n : Node) : list Node :=
  match n with
  | Element _ _ cs => cs
  | _ => []
  end.

Definition isElement (n : Node) : bool :=
  match n with
  | Element _ _ _ => true
  | _ => false
  end.

(** The element children, in document order. *)
Definition children (n : Node) : list Node := filter isElement (childNodes n).

(** The text of an element is the text of its descendants in document
    order, comments and processing instructions left out. *)
Fixpoint textContent (n : Node) : string :=
  match n with
  | Element _ _ cs =>
      (fix cat (l : list Node) : string :=
         match l with
         | [] => ""
         | c :: r =>
             (match c with
              | Misc _ => ""
              | _ => textContent c
              end) +:+ cat r
         end) cs
  | Text d => d
  | Misc d => d
  end.

(** The document: its root element.  Comments beside the root are seen
    by neither [getElementsByTagName] nor [firstElementChild]. *)
Record Document := mkDocument {
  rootName : string;
  rootAttributes : NamedNodeMap;
  rootChildNodes : list Node
}.

Definition firstElementChild (xml : Document) : Node :=
  Element (rootName xml) (rootAttributes xml) (rootChildNodes xml).

(** The elements below (and including) [n] whose qualified name is
    [name], in document order; an XML document compares names as they
    are written. *)
Fixpoint elementsByTagName (name : string) (n : Node) : list Node :=
  match n with
  | Element t _ cs =>
      (if decide (t = name) then [n] else [])
        ++ flat_map (elementsByTagName name) cs
  | _ => []
  end.

Definition getElementsByTagName (name : string) (xml : Document) : list Node :=
  elementsByTagName name (firstElementChild xml).

(** ** [fromAttributes] *)

Fixpoint fromAttributes (key : string) (attr : list NamedNodeMap) : option string :=
  match attr with
  | [] => None
  | a :: rest =>
      let value := a !! key in
      if truthy value then value else fromAttributes key rest
  end.

(** ** Tags, display kinds and content records *)

Inductive Tags : Type :=
| Tag_Expression
| Tag_Definition
| Tag_Diagram
| Tag_Paragraph
| Tag_Scenario
| Tag_Statement
| Tag_Table.

#[global] Instance Tags_eq_dec : EqDecision Tags.
Proof. solve_decision. Defined.

Definition Tags_value (t : Tags) : string :=
  match t with
  | Tag_Expression => "e"
  | Tag_Definition => "def"
  | Tag_Diagram => "diagram"
  | Tag_Paragraph => "p"
  | Tag_Scenario => "scenario"
  | Tag_Statement => "statement"
  | Tag_Table => "table"
  end.

(** The case of the [switch] a lower-cased tag name selects, in the
    order of the cases. *)
Definition Tags_case (tag : string) : option Tags :=
  find (fun t => bool_decide (tag = Tags_value t))
    [Tag_Paragraph; Tag_Expression; Tag_Table; Tag_Diagram;
     Tag_Definition; Tag_Scenario; Tag_Statement].

Inductive Display : Type :=
| P_TEXT | I_TEXT | I_FORM | O_TEXT | O_TABLE | O_DIAGRAM.

#[global] Instance Display_eq_dec : EqDecision Display.
Proof. solve_decision. Defined.

Definition Display_value (d : Display) : string :=
  match d with
  | P_TEXT => "plain/text"
  | I_TEXT => "input/text"
  | I_FORM => "input/form"
  | O_TEXT => "output/text"
  | O_TABLE => "output/table"
  | O_DIAGRAM => "output/diagram"
  end.

(** A content record: the three fields every record has, and the
    kind-specific keys of its object literal in the order written. *)
Record Content := mkContent {
  extra : list (string * option string);
  value : option string;
  display : Display;
  displayId : string
}.

(** Reading a kind-specific key; a key that is not there reads as
    [undefined]. *)
Definition field (key : string) (c : Content) : option string :=
  match find (fun kv => bool_decide (kv.1 = key)) (extra c) with
  | Some kv => kv.2
  | None => None
  end.

Record IterContext := mkIterContext {
  stack : list Content;
  count : gmap string nat
}.

(** The template literal [`${idx}.${count[tag]}`]; both numbers are
    counts of nodes of one document and print in decimal. *)
Definition displayIdOf (idx n : nat) : string :=
  pretty idx +:+ "." +:+ pretty n.

(** ** [push]

    [record] is the object literal of each case of the [switch]. *)
Definition record (t : Tags) (attributes parentAttrs : NamedNodeMap)
    (textContent : string) (id : string) : Content :=
  match t with
  | Tag_Paragraph =>
      {| extra := [];
         value := Some (trim textContent) ||| Some "";
         display := P_TEXT;
         displayId := id |}
  | Tag_Expression =>
      {| extra := [("rel", fromAttributes "rel" [attributes]);
                   ("ref", fromAttributes "name" [attributes]);
                   ("type", fromAttributes "type" [attributes])];
         value := fromAttributes "value" [attributes];
         display := I_TEXT;
         displayId := id |}
  | Tag_Table =>
      {| extra := [("max", fromAttributes "max" [attributes]);
                   ("cols", fromAttributes "cols" [attributes]);
                   ("sort", fromAttributes "sort" [attributes]);
                   ("fold", fromAttributes "fold" [attributes])];
         value := fromAttributes "value" [attributes; parentAttrs];
         display := O_TABLE;
         displayId := id |}
  | Tag_Diagram =>
      {| extra := [("y", fromAttributes "y" [attributes]);
                   ("x", fromAttributes "x" [attributes]);
                   ("id", fromAttributes "id" [attributes]);
                   ("max", fromAttributes "max" [attributes]);
                   ("fold", fromAttributes "fold" [attributes]);
                   ("type", fromAttributes "type" [attributes])];
         value := fromAttributes "value" [attributes; parentAttrs];
         display := O_DIAGRAM;
         displayId := id |}
  | Tag_Definition =>
      {| extra := [("def", Some "local");
                   ("ref", fromAttributes "name" [attributes]);
                   ("type", fromAttributes "type" [attributes])];
         value := Some (trim textContent) ||| fromAttributes "value" [attributes];
         display := I_TEXT;
         displayId := id |}
  | Tag_Scenario =>
      {| extra := [("type", fromAttributes "type" [attributes])];
         value := fromAttributes "value" [attributes];
         display := I_FORM;
         displayId := id |}
  | Tag_Statement =>
      {| extra := [("action", fromAttributes "action" [attributes])];
         value := Some (trim textContent) ||| fromAttributes "value" [attributes];
         display := O_TEXT;
         displayId := id |}
  end.

(** The counter object is an object literal, [count] its numbers.  Read
    under a name it holds no number for, it yields [undefined], except
    under the two lower-case names an object literal inherits. *)
Definition inherited (tag : string) : Prop :=
  tag = "constructor" \/ tag = "__proto__".

#[global] Instance inherited_dec tag : Decision (inherited tag).
Proof. unfold inherited. apply _. Defined.

(** [count[tag] = (count[tag] || 0) + 1].  Under an inherited name
    without a number of its own the left operand is an object, the sum
    a string, and no number is kept: the string is stored as it is
    ([constructor]) or dropped by the setter ([__proto__]). *)
Definition advance (tag : string) (count : gmap string nat) : gmap string nat :=
  if decide (inherited tag /\ count !! tag = None) then count
  else <[tag := default 0 (count !! tag) + 1]> count.

(** [push] mutates the one array and the one counter object of its
    context; the embedding passes the context through.  The parent's
    attribute set is handed down by the caller: the article's for its
    child nodes, the expression's for its children.  [n] is what
    [count[tag]] reads in the cases of the [switch], none of which is
    under an inherited name. *)
Fixpoint push (node : Node) (parentAttrs : NamedNodeMap) (ctx : IterContext)
    (idx : nat) : IterContext :=
  match node with
  | Element tagName attributes childNodes =>
      let tag := toLowerCase tagName in
      let n := default 0 (count ctx !! tag) + 1 in
      let count' := advance tag (count ctx) in
      match Tags_case tag with
      | Some t =>
          let ctx' :=
            {| stack := stack ctx ++
                 [record t attributes parentAttrs (textContent node) (displayIdOf idx n)];
               count := count' |} in
          match t with
          | Tag_Expression =>
              (* the loop over [children]: the element nodes of [childNodes] *)
              (fix each (cs : list Node) (c : IterContext) : IterContext :=
                 match cs with
                 | [] => c
                 | child :: rest =>
                     each rest
                       (match child with
                        | Element _ _ _ => push child attributes c idx
                        | _ => c
                        end)
                 end) childNodes ctx'
          | _ => ctx'
          end
      | None => {| stack := stack ctx; count := count' |}
      end
  | _ => ctx (* e.g. text nodes *)
  end.

(** The loop of [iterEachArticle] over one article's child nodes. *)
Definition pushAll (nodes : list Node) (parentAttrs : NamedNodeMap)
    (ctx : IterContext) (idx : nat) : IterContext :=
  foldl (fun c child => push child parentAttrs c idx) ctx nodes.

(** ** Object identity

    [Parser] keeps its articles and its terminology in two [Set]s.  Both
    hold objects, which a [Set] tells apart by identity, so adding an
    object depends on which object it is and not on what is in it.  An
    object literal is therefore modelled as an allocation: a small state
    monad threads the next unused identity. *)

Abbreviation Ref := nat.
Abbreviation Heap := nat.

Definition M (A : Type) : Type := Heap -> A * Heap.

Definition ret {A} (a : A) : M A := fun h => (a, h).

Definition bind {A B} (m : M A) (k : A -> M B) : M B :=
  fun h => let (a, h') := m h in k a h'.

Notation "x <- m ;; k" := (bind m (fun x => k))
  (at level 100, m at next level, right associativity).

(** An object: its identity and its fields. *)
Abbreviation Obj A := (Ref * A)%type.

Definition new {A} (a : A) : M (Obj A) := fun h => ((h, a), S h).

(** A [Set] of objects, in insertion order. *)
Abbreviation JSSet A := (list (Obj A)).

Definition has {A} (o : Obj A) (s : JSSet A) : bool :=
  bool_decide (o.1 ∈ s.*1).

Definition add {A} (o : Obj A) (s : JSSet A) : JSSet A :=
  if has o s then s else s ++ [o].

(** [Array.from] on a set: its objects in insertion order. *)
Definition Array_from {A} (s : JSSet A) : list A := s.*2.

(** ** [Parser] and [parse] *)

(** [term_value] is the field [value] of the source, [issue_terminology]
    and [issue_articles] further down its fields [terminology] and
    [articles]; the shorter names are those of [Content] and [Parser]. *)
Record Terminology := mkTerminology {
  name : option string;
  term_value : option string
}.

Record Article := mkArticle {
  title : option string;
  content : list Content
}.

Record Parser := mkParser {
  articles : JSSet Article;
  terminology : JSSet Terminology
}.

Definition new_Parser : Parser := {| articles := []; terminology := [] |}.

(** The body of the loop of [iterEachArticle] at index [i]. *)
Definition eachArticle (this : Parser) (i : nat) (el : Node) : M Parser :=
  let title := fromAttributes "title" [attributes el] in
  let ctx := pushAll (childNodes el) (attributes el)
               {| stack := []; count := ∅ |} (i + 1) in
  o <- new {| title := title;
              content := filter (fun a => truthy (value a)) (stack ctx) |} ;;
  ret {| articles := add o (articles this); terminology := terminology this |}.

(** The body of the loop of [iterEachTerminology]. *)
Definition eachTerminology (this : Parser) (el : Node) : M Parser :=
  let name := fromAttributes "name" [attributes el] in
  let value := fromAttributes "value" [attributes el] in
  o <- new {| name := name; term_value := value |} ;;
  ret {| articles := articles this; terminology := add o (terminology this) |}.

(** The loop [for (let i = 0; i < all.length; i++)] over a collection,
    the parser handed from one turn to the next. *)
Fixpoint for_each {S A} (body : S -> nat -> A -> M S) (all : list A)
    (i : nat) (this : S) : M S :=
  match all with
  | [] => ret this
  | el :: rest => this' <- body this i el ;; for_each body rest (i + 1) this'
  end.

Definition iterEachArticle (this : Parser) (xml : Document) : M Parser :=
  let all := getElementsByTagName "article" xml in
  for_each eachArticle all 0 this.

Definition iterEachTerminology (this : Parser) (xml : Document) : M Parser :=
  let all := getElementsByTagName "def" xml in
  for_each (fun this _ el => eachTerminology this el) all 0 this.

Definition iterEach (this : Parser) (xml : Document) : M Parser :=
  this <- iterEachArticle this xml ;;
  iterEachTerminology this xml.

Record Issue := mkIssue {
  issue_terminology : list Terminology;
  issue_articles : list Article;
  language : option string;
  currency : option string;
  version : option string
}.

(** [parse], from the parsed document on. *)
Definition parse (xml : Document) : M Issue :=
  let attributes := attributes (firstElementChild xml) in
  this <- iterEach new_Parser xml ;;
  ret {| issue_terminology := Array_from (terminology this);
         issue_articles := Array_from (articles this);
         language := fromAttributes "language" [attributes];
         currency := fromAttributes "currency" [attributes];
         version := fromAttributes "version" [attributes] |}.

(** The issue a run yields. *)
Definition run {A} (m : M A) (h : Heap) : A := (m h).1.

(** ** The traversal of an article

    The vocabulary the statements below are written in. *)

(** The lower-cased tag name of an element, the key of its counter. *)
Definition tagOf (n : Node) : string :=
  match n with
  | Element t _ _ => toLowerCase t
  | _ => ""
  end.

(** The case of the [switch] a node selects, if any. *)
Definition caseOf (n : Node) : option Tags :=
  match n with
  | Element t _ _ => Tags_case (toLowerCase t)
  | _ => None
  end.

Definition recognized (v : Node * NamedNodeMap) : Prop :=
  is_Some (caseOf v.1).

#[global] Instance recognized_dec v : Decision (recognized v).
Proof. unfold recognized. apply _. Defined.

(** The elements [push] is called on below [n], each with the attribute
    set of its parent, in the order of the calls: [n] itself and, when
    [n] is an expression, what is visited from its children. *)
Fixpoint visits (parentAttrs : NamedNodeMap) (n : Node) : list (Node * NamedNodeMap) :=
  match n with
  | Element t a cs =>
      (n, parentAttrs)
        :: (if bool_decide (toLowerCase t = Tags_value Tag_Expression)
            then flat_map (visits a) cs
            else [])
  | _ => []
  end.

(** The traversal of an article element. *)
Definition traversal (article : Node) : list (Node * NamedNodeMap) :=
  flat_map (visits (attributes article)) (childNodes article).

(** The same, as a relation: [d] with parent attributes [pa] is reached
    from the node list [cs] (whose parent has attributes [a]) when it is
    an element of [cs], or is reached from the child nodes of an
    expression element of [cs]. *)
Inductive reaches (a : NamedNodeMap) (cs : list Node) : Node -> NamedNodeMap -> Prop :=
| reaches_child d :
    d ∈ cs -> isElement d = true -> reaches a cs d a
| reaches_nested t a' cs' d pa :
    Element t a' cs' ∈ cs ->
    toLowerCase t = Tags_value Tag_Expression ->
    reaches a' cs' d pa ->
    reaches a cs d pa.

(** [inTree d n]: the node [d] occurs in the tree rooted at [n]. *)
Inductive inTree (d : Node) : Node -> Prop :=
| inTree_here : inTree d d
| inTree_below t a cs c : c ∈ cs -> inTree d c -> inTree d (Element t a cs).

(** How many of the visits [l] are to elements with counter key [T]. *)
Definition occurrences (T : string) (l : list (Node * NamedNodeMap)) : nat :=
  length (filter (fun v => tagOf v.1 = T) l).

(** What one visit does to the context. *)
Definition step (idx : nat) (ctx : IterContext) (v : Node * NamedNodeMap) : IterContext :=
  let tag := tagOf v.1 in
  let n := default 0 (count ctx !! tag) + 1 in
  {| stack := stack ctx ++
       match caseOf v.1 with
       | Some t => [record t (attributes v.1) v.2 (textContent v.1) (displayIdOf idx n)]
       | None => []
       end;
     count := advance tag (count ctx) |}.

(** A name under which the counter object keeps a number once a visit
    has advanced it. *)
Definition kept (T : string) (count : gmap string nat) : Prop :=
  ~ (inherited T /\ count !! T = None).

(** The context at the end of the loop over an article's child nodes. *)
Definition walk (article : Node) (idx : nat) : IterContext :=
  pushAll (childNodes article) (attributes article)
    {| stack := []; count := ∅ |} idx.

Definition articleOf (idx : nat) (article : Node) : Article :=
  {| title := fromAttributes "title" [attributes article];
     content := filter (fun a => truthy (value a)) (stack (walk article idx)) |}.

Definition terminologyOf (el : Node) : Terminology :=
  {| name := fromAttributes "name" [attributes el];
     term_value := fromAttributes "value" [attributes el] |}.

(** The present and non-empty value of an attribute. *)
Definition attr (key : string) (a : NamedNodeMap) : option string :=
  match a !! key with
  | Some (String c s) => Some (String c s)
  | _ => None
  end.

(** The issue a document is read into, written without the parser's
    state. *)
Definition issueOf (xml : Document) : Issue :=
  {| issue_terminology := terminologyOf <$> getElementsByTagName "def" xml;
     issue_articles :=
       imap (fun k el => articleOf (k + 1) el) (getElementsByTagName "article" xml);
     language := fromAttributes "language" [rootAttributes xml];
     currency := fromAttributes "currency" [rootAttributes xml];
     version := fromAttributes "version" [rootAttributes xml] |}.

(** A set of objects whose identities are all older than [h]. *)
Definition older {A} (h : Heap) (s : JSSet A) : Prop :=
  Forall (fun o => o.1 < h) s.

(** ** Sample documents *)

Definition attrs (l : list (string * string)) : NamedNodeMap := list_to_map l.

Definition issue (nodes : list Node) : Document :=
  mkDocument "issue"
    (attrs [("language", "ro-RO"); ("currency", "RON"); ("version", "1.0")])
    nodes.

Definition p (text : string) : Node := Element "p" ∅ [Text text].

(** An article with the paragraphs "Hello" and "". *)
Definition hello_article : Node :=
  Element "article" (attrs [("title", "T")]) [p "Hello"; p ""].

(** An article holding an expression that holds an expression. *)
Definition nested_article (outer inner : NamedNodeMap) : Node :=
  Element "article" ∅ [Element "e" outer [Element "e" inner []]].

Definition euro_sub : Document :=
  issue [nested_article (attrs [("name", "Euro")]) (attrs [("name", "Sub")])].

Definition euro_sub_valued : Document :=
  issue [nested_article (attrs [("name", "Euro"); ("value", "1 RON = ? EUR")])
                        (attrs [("name", "Sub"); ("value", "x")])].

Definition empty_context : IterContext := {| stack := []; count := ∅ |}.

(** An element outside the vocabulary. *)
Definition note : Node := Element "note" ∅ [Text "n"].

(** A table without a value of its own. *)
Definition plain_table : Node := Element "table" (attrs [("cols", "ds")]) [].

(** A definition with both a text and a [value] attribute. *)
Definition euro_def : Node :=
  Element "def" (attrs [("name", "Euro"); ("type", "exchange"); ("value", "1 RON")])
    [Text " 1 RON = ? EUR "].

(** A definition below a table of an article. *)
Definition boxed_def : Node :=
  Element "def" (attrs [("name", "n"); ("value", "v")]) [Text "d"].






(** A definition beside the articles and one in an article. *)
Definition euro_article : Node :=
  Element "article" (attrs [("title", "T")]) [euro_def].

Definition glossary : Document := issue [boxed_def; euro_article].

(** Two articles alike and two definitions alike. *)
Definition twins : Document :=
  issue [Element "article" (attrs [("title", "T")]) [p ""];
         Element "article" (attrs [("title", "T")]) [p ""];
         Element "def" (attrs [("name", "n"); ("value", "v")]) [];
         Element "def" (attrs [("name", "n"); ("value", "v")]) []].

(** ** Further vocabulary *)

(** A source that has no non-empty value under [key]. *)
Definition lacks (key : string) (a : NamedNodeMap) : Prop :=
  a !! key = None \/ a !! key = Some "".

(** Where the record of the [i]th visit of [l] sits on a stack that was
    empty before the visits. *)
Definition slot (l : list (Node * NamedNodeMap)) (i : nat) : nat :=
  length (filter recognized (take i l)).

(** The code units of a string, and a string of white space only. *)
Definition units (s : string) : list ascii := list_ascii_of_string s.

Definition blank (s : string) : Prop :=
  Forall (fun c => isWhiteSpace c = true) (units s).

(** A string without the separator of display identifiers. *)
Definition dotless (s : string) : Prop := "."%char ∉ units s.

(** Two attribute sources for one key. *)
Definition own_empty : NamedNodeMap := attrs [("value", ""); ("cols", "ds")].
Definition parent_set : NamedNodeMap := attrs [("value", "Ref. 1")].

(** An article with a definition and an expression. *)
Definition mixed_article : Node :=
  Element "article" (attrs [("title", "T")])
    [euro_def; Element "e" (attrs [("name", "Ref. 1"); ("value", "{c = class}")]) []].

(** The same nodes with white space and a comment between them. *)
Definition spaced_article : Node :=
  Element "article" (attrs [("title", "T")])
    [Text " "; euro_def; Misc "note";
     Element "e" (attrs [("name", "Ref. 1"); ("value", "{c = class}")]) []; Text " "].

(** A definition written in capitals, in an article. *)
Definition capital_def : Node :=
  Element "DEF" (attrs [("name", "n"); ("value", "v")]) [Text "d"].

Definition capital : Document :=
  issue [Element "article" (attrs [("title", "T")]) [capital_def]].

(** An article inside an article. *)
Definition inner_article : Node :=
  Element "article" (attrs [("title", "In")]) [p "b"].

Definition outer_article : Node :=
  Element "article" (attrs [("title", "Out")]) [p "a"; inner_article].

Definition nested_articles : Document := issue [outer_article].

(** The keys of a table's record and of a diagram's, in the order of
    the object literals. *)
Definition table_keys : list string := ["max"; "cols"; "sort"; "fold"].
Definition diagram_keys : list string := ["y"; "x"; "id"; "max"; "fold"; "type"].

(** An expression with a value, holding a table without one. *)
Definition ref_table_article : Node :=
  Element "article" (attrs [("title", "T")])
    [Element "e" (attrs [("name", "Ref. 1"); ("value", "{c = class}")])
       [Text " "; plain_table]].

(** The article of the example preceded by another expression. *)
Definition euro_sub_preceded : Document :=
  issue [Element "article" ∅
           [Element "e" (attrs [("name", "First"); ("value", "f")]) [];
            Element "e" (attrs [("name", "Euro"); ("value", "1 RON = ? EUR")])
              [Element "e" (attrs [("name", "Sub"); ("value", "x")]) []]]].

(** The article of the example as it is written out, with text between
    the elements, other elements around and a capital tag name. *)
Definition euro_sub_pretty : Document :=
  issue [Element "article" (attrs [("title", "T")])
           [Text " "; p "intro";
            Element "E" (attrs [("name", "Euro"); ("value", "1 RON = ? EUR")])
              [Text " "; p "x";
               Element "e" (attrs [("name", "Sub"); ("value", "x")]) [p "deep"];
               Text " "];
            Element "e" (attrs [("value", "later")]) []]].

(** The expression of [ref_table_article], parent of its table. *)
Definition ref_expression : Node :=
  Element "e" (attrs [("name", "Ref. 1"); ("value", "{c = class}")])
    [Text " "; plain_table].

(** * Properties *)

(** ** The built-ins on samples *)

Example trim_sample :
  trim (String "009" "  a b " +:+ String "010" "") = "a b"
  /\ trim "   " = "" /\ trim "" = "".
Proof. repeat split; reflexivity. Qed.

Example toLowerCase_sample :
  toLowerCase "DeF" = "def" /\ toLowerCase "Table-1" = "table-1".
Proof. split; reflexivity. Qed.

Example textContent_sample :
  textContent (Element "p" ∅ [Text "a"; Misc "c"; Element "b" ∅ [Text "d"]; Text "e"])
  = "ade".
Proof. reflexivity. Qed.

(** A tag selects its case whatever its letter case. *)
Example upper_case_paragraph :
  stack (push (Element "P" ∅ [Text " x "]) ∅ empty_context 3)
  = [ {| extra := []; value := Some "x"; display := P_TEXT; displayId := "3.1" |} ].
Proof. vm_compute. reflexivity. Qed.

(** ** Induction on trees *)

Lemma Node_ind_nested (P : Node -> Prop)
    (Helt : forall t a cs, Forall P cs -> P (Element t a cs))
    (Htxt : forall d, P (Text d))
    (Hmisc : forall d, P (Misc d)) :
  forall n, P n.
Proof.
  fix IH 1. intros [t a cs|d|d]; [apply Helt | apply Htxt | apply Hmisc].
  induction cs as [|c cs IHcs]; constructor; [apply IH | apply IHcs].
Qed.

(** ** [push] as a run of [step] over the visits *)

Lemma push_not_element (n : Node) pa ctx idx :
  isElement n = false -> push n pa ctx idx = ctx.
Proof. by destruct n. Qed.

Lemma pushAll_cons c cs pa ctx idx :
  pushAll (c :: cs) pa ctx idx = pushAll cs pa (push c pa ctx idx) idx.
Proof. reflexivity. Qed.

Lemma pushAll_children cs pa ctx idx :
  pushAll (filter isElement cs) pa ctx idx = pushAll cs pa ctx idx.
Proof.
  revert ctx. induction cs as [|c cs IH]; intros ctx; [done|].
  destruct (isElement c) eqn:Hc.
  - rewrite filter_cons_True by (by apply Is_true_true). rewrite !pushAll_cons. apply IH.
  - rewrite filter_cons_False by (by apply Is_true_false).
    rewrite pushAll_cons, push_not_element by done. apply IH.
Qed.

(** The equation of [push] on an element, with the loop over
    [children] as the source writes it. *)
Lemma push_Element t a cs pa ctx idx :
  push (Element t a cs) pa ctx idx =
    let tag := toLowerCase t in
    let n := default 0 (count ctx !! tag) + 1 in
    let count' := advance tag (count ctx) in
    match Tags_case tag with
    | Some k =>
        let ctx' :=
          {| stack := stack ctx ++
               [record k a pa (textContent (Element t a cs)) (displayIdOf idx n)];
             count := count' |} in
        match k with
        | Tag_Expression => pushAll (children (Element t a cs)) a ctx' idx
        | _ => ctx'
        end
    | None => {| stack := stack ctx; count := count' |}
    end.
Proof.
  cbn zeta. cbn [push].
  destruct (Tags_case (toLowerCase t)) as [[]|]; try reflexivity.
  unfold children. cbn [childNodes]. rewrite pushAll_children.
  match goal with |- _ ?c = _ => generalize c end.
  induction cs as [|c cs IH]; intros c0; [done|].
  rewrite pushAll_cons, <- IH. by destruct c.
Qed.

Lemma case_not_inherited T k : Tags_case T = Some k -> ~ inherited T.
Proof. by intros Hk [-> | ->]. Qed.

Lemma advance_case T k count :
  Tags_case T = Some k ->
  advance T count = <[T := default 0 (count !! T) + 1]> count.
Proof.
  intros Hk. unfold advance. rewrite decide_False; [done|].
  intros [Hi _]. by apply (case_not_inherited T k).
Qed.

Lemma advance_lookup_ne tag T count :
  T <> tag -> advance tag count !! T = count !! T.
Proof. intros HT. unfold advance. case_decide; [done|]. by rewrite lookup_insert_ne. Qed.

Lemma advance_lookup_kept tag count :
  kept tag count -> advance tag count !! tag = Some (default 0 (count !! tag) + 1).
Proof.
  intros Hk. unfold advance. rewrite decide_False by done. by rewrite lookup_insert_eq.
Qed.

Lemma advance_dropped tag count :
  inherited tag -> count !! tag = None -> advance tag count = count.
Proof. intros Hi Hn. unfold advance. by rewrite decide_True. Qed.

Lemma advance_kept tag T count : kept T count -> kept T (advance tag count).
Proof.
  intros Hk [Hi Hn]. apply Hk. split; [done|].
  destruct (decide (T = tag)) as [->|Hne].
  - destruct (decide (kept tag count)) as [Hk'|Hk'].
    + by rewrite advance_lookup_kept in Hn.
    + by destruct (count !! tag) eqn:E; [exfalso; apply Hk'; intros [_ ?]|].
  - by rewrite advance_lookup_ne in Hn.
Qed.

Lemma caseOf_kept n k count : caseOf n = Some k -> kept (tagOf n) count.
Proof.
  intros Hk [Hi _]. destruct n as [t a cs| |]; [|done..].
  by apply (case_not_inherited (toLowerCase t) k).
Qed.

Lemma push_expression t a cs pa ctx idx :
  toLowerCase t = "e" ->
  push (Element t a cs) pa ctx idx =
    pushAll cs a
      {| stack := stack ctx ++
           [record Tag_Expression a pa (textContent (Element t a cs))
              (displayIdOf idx (default 0 (count ctx !! "e") + 1))];
         count := <["e" := default 0 (count ctx !! "e") + 1]> (count ctx) |} idx.
Proof.
  intros Ht. rewrite push_Element. cbn zeta. rewrite Ht.
  rewrite (advance_case "e" Tag_Expression) by done.
  change (Tags_case "e") with (Some Tag_Expression). cbn match.
  unfold children. cbn [childNodes]. apply pushAll_children.
Qed.

Lemma push_leaf t a cs pa ctx idx k :
  Tags_case (toLowerCase t) = Some k ->
  k <> Tag_Expression ->
  push (Element t a cs) pa ctx idx =
    {| stack := stack ctx ++
         [record k a pa (textContent (Element t a cs))
            (displayIdOf idx (default 0 (count ctx !! toLowerCase t) + 1))];
       count := <[toLowerCase t := default 0 (count ctx !! toLowerCase t) + 1]> (count ctx) |}.
Proof.
  intros Hk Hne. rewrite push_Element. cbn zeta.
  rewrite (advance_case _ k) by done. rewrite Hk. by destruct k.
Qed.

Lemma push_unrecognized t a cs pa ctx idx :
  Tags_case (toLowerCase t) = None ->
  push (Element t a cs) pa ctx idx =
    {| stack := stack ctx; count := advance (toLowerCase t) (count ctx) |}.
Proof. intros Hk. rewrite push_Element. cbn zeta. by rewrite Hk. Qed.

Lemma foldl_step_app idx ctx l1 l2 :
  foldl (step idx) ctx (l1 ++ l2) = foldl (step idx) (foldl (step idx) ctx l1) l2.
Proof. apply foldl_app. Qed.

Lemma Tags_case_expression tag :
  Tags_case tag = Some Tag_Expression <-> tag = Tags_value Tag_Expression.
Proof.
  unfold Tags_case. cbn [find].
  repeat case_bool_decide; subst; cbn in *; split; congruence.
Qed.

Lemma pushAll_visits idx a cs :
  Forall (fun c => forall pa ctx, push c pa ctx idx = foldl (step idx) ctx (visits pa c)) cs ->
  forall ctx, pushAll cs a ctx idx = foldl (step idx) ctx (flat_map (visits a) cs).
Proof.
  induction 1 as [|c cs Hc _ IH]; intros ctx; [done|].
  rewrite pushAll_cons. cbn [flat_map]. rewrite foldl_step_app, <- Hc. apply IH.
Qed.

(** [push] on a node is the run of [step] over the visits below it. *)
Lemma push_visits idx n :
  forall pa ctx, push n pa ctx idx = foldl (step idx) ctx (visits pa n).
Proof.
  induction n as [t a cs IH|d|d] using Node_ind_nested; intros pa ctx; [|done..].
  rewrite push_Element. cbn zeta. cbn [visits foldl].
  unfold step at 2. cbn [tagOf caseOf fst snd attributes].
  destruct (Tags_case (toLowerCase t)) as [k|] eqn:Hk.
  - destruct (decide (k = Tag_Expression)) as [->|Hne].
    + rewrite bool_decide_eq_true_2 by (by apply Tags_case_expression).
      unfold children. cbn [childNodes]. rewrite pushAll_children.
      by apply pushAll_visits.
    + rewrite bool_decide_eq_false_2.
      2:{ intros He. apply Tags_case_expression in He. congruence. }
      by destruct k.
  - rewrite bool_decide_eq_false_2.
    2:{ intros He. apply Tags_case_expression in He. congruence. }
    cbn [foldl]. by rewrite app_nil_r.
Qed.

Lemma walk_visits article idx :
  walk article idx =
    foldl (step idx) {| stack := []; count := ∅ |} (traversal article).
Proof.
  unfold walk, traversal. apply pushAll_visits, Forall_forall.
  intros c _ pa ctx. apply push_visits.
Qed.

(** ** What a run of [step] leaves in the context *)

Section StepRun.
Variable idx : nat.

Lemma occurrences_app T l1 l2 :
  occurrences T (l1 ++ l2) = occurrences T l1 + occurrences T l2.
Proof. unfold occurrences. by rewrite filter_app, length_app. Qed.

Lemma occurrences_cons T v l :
  occurrences T (v :: l) =
    (if decide (tagOf v.1 = T) then 1 else 0) + occurrences T l.
Proof.
  unfold occurrences. rewrite filter_cons. by case_decide.
Qed.

Lemma step_count ctx v T :
  kept T (count ctx) ->
  default 0 (count (step idx ctx v) !! T) =
    default 0 (count ctx !! T) + (if decide (tagOf v.1 = T) then 1 else 0).
Proof.
  intros Hk. unfold step. cbn [count]. case_decide as Ht.
  - subst T. by rewrite advance_lookup_kept.
  - rewrite advance_lookup_ne by done. lia.
Qed.

(** Each counter that is kept has advanced by the number of visits to
    its tag. *)
Lemma run_count l : forall ctx T,
  kept T (count ctx) ->
  default 0 (count (foldl (step idx) ctx l) !! T) =
    default 0 (count ctx !! T) + occurrences T l.
Proof.
  induction l as [|v l IH]; intros ctx T Hk; cbn [foldl].
  - unfold occurrences. cbn. lia.
  - rewrite IH by (by apply advance_kept).
    rewrite step_count, occurrences_cons by done. lia.
Qed.

(** No number appears under an inherited name that had none. *)
Lemma run_dropped l : forall ctx T,
  inherited T -> count ctx !! T = None ->
  count (foldl (step idx) ctx l) !! T = None.
Proof.
  induction l as [|v l IH]; intros ctx T Hi Hn; cbn [foldl]; [done|].
  apply IH; [done|]. unfold step. cbn [count].
  destruct (decide (T = tagOf v.1)) as [->|Hne].
  - by rewrite advance_dropped.
  - by rewrite advance_lookup_ne.
Qed.

(** The stack has grown by one record per visit to a recognized tag. *)
Lemma run_stack l : forall ctx,
  exists suffix,
    stack (foldl (step idx) ctx l) = stack ctx ++ suffix
    /\ length suffix = length (filter recognized l).
Proof.
  induction l as [|v l IH]; intros ctx; cbn [foldl].
  - exists []. by rewrite app_nil_r.
  - destruct (IH (step idx ctx v)) as (s & -> & Hlen).
    unfold step at 1. cbn [stack].
    destruct (caseOf v.1) as [k|] eqn:Hk.
    + rewrite filter_cons_True by (unfold recognized; eauto).
      eexists. rewrite <- app_assoc.
      split; [done|]. cbn. by rewrite Hlen.
    + rewrite filter_cons_False by (unfold recognized; rewrite Hk; by intros [? ?]).
      exists s. by rewrite app_nil_r.
Qed.

Lemma run_middle l1 v l2 ctx k :
  caseOf v.1 = Some k ->
  stack (foldl (step idx) ctx (l1 ++ v :: l2))
    !! (length (stack ctx) + length (filter recognized l1))
  = Some (record k (attributes v.1) v.2 (textContent v.1)
            (displayIdOf idx
               (default 0 (count ctx !! tagOf v.1)
                + occurrences (tagOf v.1) (l1 ++ [v])))).
Proof.
  intros Hk. rewrite foldl_step_app. cbn [foldl].
  destruct (run_stack l2 (step idx (foldl (step idx) ctx l1) v)) as (s3 & -> & _).
  destruct (run_stack l1 ctx) as (s1 & Hs1 & Hlen1).
  unfold step at 1. cbn [stack]. rewrite Hk, Hs1, <- Hlen1.
  rewrite <- !app_assoc, lookup_app_r by lia.
  replace (length (stack ctx) + length s1 - length (stack ctx)) with (length s1) by lia.
  rewrite lookup_app_r by lia. rewrite Nat.sub_diag. cbn.
  do 3 f_equal. rewrite run_count by (by eapply caseOf_kept).
  rewrite occurrences_app, occurrences_cons.
  rewrite decide_True by done. unfold occurrences at 3. cbn. lia.
Qed.

(** The record of the [i]th visit: where it is on the stack and what
    count its identifier embeds. *)
Lemma run_lookup l ctx i v k :
  l !! i = Some v ->
  caseOf v.1 = Some k ->
  stack (foldl (step idx) ctx l)
    !! (length (stack ctx) + length (filter recognized (take i l)))
  = Some (record k (attributes v.1) v.2 (textContent v.1)
            (displayIdOf idx
               (default 0 (count ctx !! tagOf v.1)
                + occurrences (tagOf v.1) (take (S i) l)))).
Proof.
  intros Hi Hk. rewrite (take_S_r l i v Hi).
  rewrite <- (run_middle (take i l) v (drop (S i) l) ctx k Hk).
  by rewrite take_drop_middle.
Qed.

End StepRun.

(** ** Sets of fresh objects *)

Lemma add_fresh {A} (o : Obj A) (s : JSSet A) :
  older o.1 s -> add o s = s ++ [o].
Proof.
  intros Hs. unfold add, has. rewrite bool_decide_eq_false_2; [done|].
  intros Hin. apply list_elem_of_fmap in Hin as (x & Hx & Hxs).
  unfold older in Hs. rewrite Forall_forall in Hs. specialize (Hs x Hxs). cbn beta in Hs. lia.
Qed.

Lemma older_snoc {A} h (o : A) (s : JSSet A) :
  older h s -> older (S h) (s ++ [(h, o)]).
Proof.
  intros Hs. apply Forall_app. split.
  - eapply Forall_impl; [exact Hs|]. cbn. lia.
  - repeat constructor.
Qed.

Lemma imap_refs_NoDup {A B} h (f : nat -> A -> B) (l : list A) :
  NoDup (imap (fun k x => (h + k, f k x)) l).*1.
Proof.
  revert h f. induction l as [|x l IH]; intros h f; [constructor|].
  cbn. constructor.
  - intros Hin. apply list_elem_of_fmap in Hin as (y & Hy & Hin).
    apply elem_of_lookup_imap in Hin as (k & z & -> & _). cbn in Hy. lia.
  - rewrite (imap_ext _ (fun k x => (S h + k, f (S k) x))); [apply IH|].
    intros k z _. cbn. f_equal. lia.
Qed.

(** ** The two loops of [Parser] *)

Lemma for_each_articles all : forall i this h,
  older h (articles this) ->
  for_each eachArticle all i this h =
    ({| articles := articles this
          ++ imap (fun k el => (h + k, articleOf (i + k + 1) el)) all;
        terminology := terminology this |},
     h + length all).
Proof.
  induction all as [|el all IH]; intros i this h Hold.
  - cbn. rewrite app_nil_r, Nat.add_0_r. by destruct this.
  - cbn [for_each]. unfold bind at 1. unfold eachArticle at 1.
    unfold bind, new, ret. cbn [fst snd].
    rewrite add_fresh by done.
    rewrite IH by (by apply older_snoc). cbn [articles terminology length imap].
    rewrite <- app_assoc. cbn [app]. rewrite !Nat.add_0_r.
    f_equal; [|lia]. f_equal. f_equal. f_equal.
    apply imap_ext. intros k x _. cbn. f_equal; [lia|]. f_equal. lia.
Qed.

Lemma for_each_terminology all : forall i this h,
  older h (terminology this) ->
  for_each (fun this _ el => eachTerminology this el) all i this h =
    ({| articles := articles this;
        terminology := terminology this
          ++ imap (fun k el => (h + k, terminologyOf el)) all |},
     h + length all).
Proof.
  induction all as [|el all IH]; intros i this h Hold.
  - cbn. rewrite app_nil_r, Nat.add_0_r. by destruct this.
  - cbn [for_each]. unfold bind at 1. unfold eachTerminology at 1.
    unfold bind, new, ret. cbn [fst snd].
    rewrite add_fresh by done.
    rewrite IH by (by apply older_snoc). cbn [articles terminology length imap].
    rewrite <- app_assoc. cbn [app]. rewrite !Nat.add_0_r.
    f_equal; [|lia]. f_equal. f_equal. f_equal.
    apply imap_ext. intros k x _. cbn. f_equal. lia.
Qed.

Lemma older_le {A} h h' (s : JSSet A) : h <= h' -> older h s -> older h' s.
Proof. intros Hle Hs. eapply Forall_impl; [exact Hs|]. cbn. lia. Qed.

(** [iterEach] only appends: one object per [article] element and one
    per [def] element, in document order, after what the sets held. *)
Lemma iterEach_appends this xml h :
  older h (articles this) ->
  older h (terminology this) ->
  iterEach this xml h =
    let arts := getElementsByTagName "article" xml in
    let defs := getElementsByTagName "def" xml in
    ({| articles := articles this
          ++ imap (fun k el => (h + k, articleOf (k + 1) el)) arts;
        terminology := terminology this
          ++ imap (fun k el => (h + length arts + k, terminologyOf el)) defs |},
     h + length arts + length defs).
Proof.
  intros Ha Ht. unfold iterEach, iterEachArticle, iterEachTerminology, bind.
  rewrite for_each_articles by done.
  rewrite for_each_terminology by (cbn; eapply older_le; [|exact Ht]; lia).
  reflexivity.
Qed.

Lemma iterEach_new xml h :
  iterEach new_Parser xml h =
    let arts := getElementsByTagName "article" xml in
    let defs := getElementsByTagName "def" xml in
    ({| articles := imap (fun k el => (h + k, articleOf (k + 1) el)) arts;
        terminology :=
          imap (fun k el => (h + length arts + k, terminologyOf el)) defs |},
     h + length arts + length defs).
Proof. by rewrite iterEach_appends by constructor. Qed.

Lemma fmap_snd_imap {A B} (g : nat -> nat) (f : nat -> A -> B) (l : list A) :
  (imap (fun k x => (g k, f k x)) l).*2 = imap f l.
Proof.
  revert g f. induction l as [|x l IH]; intros g f; [done|].
  cbn. f_equal. apply (IH (g ∘ S) (f ∘ S)).
Qed.

(** [parse] yields [issueOf], whatever identities are in use. *)
Lemma parse_issueOf xml h : run (parse xml) h = issueOf xml.
Proof.
  unfold run, parse, bind. rewrite iterEach_new. cbn zeta. cbn [fst snd ret].
  unfold ret, issueOf, Array_from. cbn [fst articles terminology attributes firstElementChild].
  f_equal.
  - rewrite fmap_snd_imap. induction (getElementsByTagName "def" xml); [done|].
    cbn. by f_equal.
  - by rewrite fmap_snd_imap.
Qed.

(** ** Articles of the issue *)

Lemma issue_article xml h j article :
  getElementsByTagName "article" xml !! j = Some article ->
  issue_articles (run (parse xml) h) !! j = Some (articleOf (j + 1) article).
Proof.
  intros Hj. rewrite parse_issueOf. unfold issueOf. cbn [issue_articles].
  by rewrite list_lookup_imap, Hj.
Qed.

Lemma walk_lookup article idx i el pa k :
  traversal article !! i = Some (el, pa) ->
  caseOf el = Some k ->
  stack (walk article idx) !! length (filter recognized (take i (traversal article)))
  = Some (record k (attributes el) pa (textContent el)
            (displayIdOf idx (occurrences (tagOf el) (take (S i) (traversal article))))).
Proof.
  intros Hi Hk. rewrite walk_visits.
  pose proof (run_lookup idx (traversal article) {| stack := []; count := ∅ |} i (el, pa) k Hi Hk) as H.
  cbn [stack count length fst snd] in H. rewrite lookup_empty in H. exact H.
Qed.

Lemma walk_length article idx :
  length (stack (walk article idx)) = length (filter recognized (traversal article)).
Proof.
  rewrite walk_visits.
  destruct (run_stack idx (traversal article) {| stack := []; count := ∅ |})
    as (s & -> & Hlen).
  exact Hlen.
Qed.

Lemma kept_in_content (r : Content) article idx :
  r ∈ stack (walk article idx) ->
  truthy (value r) = true ->
  r ∈ content (articleOf idx article).
Proof.
  intros Hin Hv. unfold articleOf. cbn [content].
  apply list_elem_of_filter. split; [by apply Is_true_true | done].
Qed.

(** ** Display identifiers *)

Example hello_issue :
  issue_articles (run (parse (issue [hello_article])) 0) =
    [ {| title := Some "T";
         content := [ {| extra := []; value := Some "Hello";
                         display := P_TEXT; displayId := "1.1" |} ] |} ].
Proof. vm_compute. reflexivity. Qed.

(** C1: in the article with ordinal [A = j + 1], the element visited at
    position [i] of the traversal (nested expression children included),
    if its tag is in the vocabulary, gets the record whose [displayId] is
    "A.n", where [n] counts the visits to that tag up to and including
    this one, whether or not their records are kept; the record sits on
    the stack, and is in the article's content when its value is truthy. *)
Theorem displayId_nth_occurrence (xml : Document) (h : Heap) (j : nat)
    (article : Node) (i : nat) (el : Node) (pa : NamedNodeMap) (k : Tags) :
  getElementsByTagName "article" xml !! j = Some article ->
  traversal article !! i = Some (el, pa) ->
  caseOf el = Some k ->
  let A := j + 1 in
  let n := occurrences (tagOf el) (take (S i) (traversal article)) in
  let r := record k (attributes el) pa (textContent el) (displayIdOf A n) in
  stack (walk article A) !! length (filter recognized (take i (traversal article))) = Some r
  /\ length (stack (walk article A)) = length (filter recognized (traversal article))
  /\ displayId r = pretty A +:+ "." +:+ pretty n
  /\ 1 <= n
  /\ default 0 (count (walk article A) !! tagOf el) = occurrences (tagOf el) (traversal article)
  /\ exists a,
       issue_articles (run (parse xml) h) !! j = Some a
       /\ content a = filter (fun c => truthy (value c)) (stack (walk article A))
       /\ (truthy (value r) = true -> r ∈ content a).
Proof.
  intros Hj Hi Hk A n r.
  assert (Hr : stack (walk article A)
                 !! length (filter recognized (take i (traversal article))) = Some r)
    by (by apply walk_lookup).
  split; [exact Hr|]. split; [apply walk_length|]. split; [by destruct k|]. split.
  - subst n. rewrite (take_S_r _ _ _ Hi), occurrences_app, occurrences_cons.
    rewrite decide_True by done. lia.
  - split.
    + rewrite walk_visits, run_count by (by eapply caseOf_kept).
      cbn [count]. by rewrite lookup_empty.
    + exists (articleOf A article). split; [by apply issue_article|].
      split; [done|]. intros Hv. apply kept_in_content; [|done].
      eapply list_elem_of_lookup_2, Hr.
Qed.

Lemma displayId_nth_occurrence_witness :
  exists r,
    stack (walk hello_article 1) !! 1 = Some r
    /\ value r = Some "" /\ displayId r = "1.2".
Proof.
  destruct (displayId_nth_occurrence (issue [hello_article]) 0 0 hello_article
              1 (p "") (attrs [("title", "T")]) Tag_Paragraph
              eq_refl eq_refl eq_refl) as (Hr & _ & Hid & _).
  eexists. split; [exact Hr|]. split; reflexivity.
Defined.

(** ** Nested expressions *)

Lemma fromAttributes_one key (a : NamedNodeMap) :
  fromAttributes key [a] = attr key a.
Proof. unfold attr. cbn. by destruct (a !! key) as [[|c s]|]. Qed.

Lemma fromAttributes_two key (a b : NamedNodeMap) :
  fromAttributes key [a; b] =
    match attr key a with Some v => Some v | None => attr key b end.
Proof.
  unfold attr. cbn. destruct (a !! key) as [[|c s]|]; cbn;
    by destruct (b !! key) as [[|c' s']|].
Qed.

Lemma attr_Some key (a : NamedNodeMap) v :
  a !! key = Some v -> v <> "" -> attr key a = Some v.
Proof. unfold attr. intros -> Hv. by destruct v. Qed.

(** C2, as stated, at the document of the example: with nothing but a
    [name] on the two expressions, the article keeps no record.  And
    with values on both, but another expression before them in the
    article, the record of the outer one does not carry "1.1". *)
Lemma nested_expression_unvalued :
  (~ exists a r1 r2,
      a ∈ issue_articles (run (parse euro_sub) 0)
      /\ r1 ∈ content a /\ r2 ∈ content a
      /\ displayId r1 = "1.1" /\ displayId r2 = "1.2")
  /\ (~ exists a r,
        a ∈ issue_articles (run (parse euro_sub_preceded) 0)
        /\ r ∈ content a
        /\ field "ref" r = Some "Euro" /\ displayId r = "1.1").
Proof.
  split.
  - intros (a & r1 & r2 & Ha & Hr1 & _).
    replace (issue_articles (run (parse euro_sub) 0))
      with [ {| title := None; content := [] |} ] in Ha by (vm_compute; reflexivity).
    apply list_elem_of_singleton in Ha. subst a. cbn in Hr1.
    by apply not_elem_of_nil in Hr1.
  - intros (a & r & Ha & Hr & Href & Hid).
    replace (issue_articles (run (parse euro_sub_preceded) 0))
      with [ {| title := None;
                content :=
                  [record Tag_Expression (attrs [("name", "First"); ("value", "f")]) ∅ "" "1.1";
                   record Tag_Expression
                     (attrs [("name", "Euro"); ("value", "1 RON = ? EUR")]) ∅ "" "1.2";
                   record Tag_Expression
                     (attrs [("name", "Sub"); ("value", "x")])
                     (attrs [("name", "Euro"); ("value", "1 RON = ? EUR")]) "" "1.3"] |} ]
      in Ha by (vm_compute; reflexivity).
    apply list_elem_of_singleton in Ha. subst a. cbn [content] in Hr.
    repeat (apply elem_of_cons in Hr as [->|Hr]; [by vm_compute in Href, Hid|]).
    by apply not_elem_of_nil in Hr.
Qed.

Lemma occurrences_not_expression a l :
  Forall (fun n => tagOf n <> "e") l ->
  occurrences "e" (flat_map (visits a) l) = 0.
Proof.
  induction 1 as [|n l Hn _ IH]; [done|].
  cbn [flat_map]. rewrite occurrences_app, IH.
  destruct n as [t a0 cs| |]; [|done..]. cbn [visits tagOf] in *.
  rewrite bool_decide_eq_false_2 by done.
  rewrite occurrences_cons. cbn [fst tagOf]. by rewrite decide_False.
Qed.

Lemma lookup_two {A} (l : list A) i i' x y :
  l !! i = Some x -> l !! i' = Some y -> i < i' ->
  exists s1 s2 s3, l = s1 ++ x :: s2 ++ y :: s3.
Proof.
  intros Hi Hi' Hlt.
  exists (take i l), (take (i' - S i) (drop (S i) l)), (drop (S (i' - S i)) (drop (S i) l)).
  rewrite take_drop_middle; [by rewrite take_drop_middle|].
  rewrite lookup_drop. by replace (S i + (i' - S i)) with i' by lia.
Qed.

Example euro_sub_valued_issue :
  issue_articles (run (parse euro_sub_valued) 0) =
    [ {| title := None;
         content :=
           [ {| extra := [("rel", None); ("ref", Some "Euro"); ("type", None)];
                value := Some "1 RON = ? EUR";
                display := I_TEXT; displayId := "1.1" |};
             {| extra := [("rel", None); ("ref", Some "Sub"); ("type", None)];
                value := Some "x";
                display := I_TEXT; displayId := "1.2" |} ] |} ].
Proof. vm_compute. reflexivity. Qed.

Lemma visits_expression t a cs pa :
  toLowerCase t = "e" ->
  visits pa (Element t a cs) = (Element t a cs, pa) :: flat_map (visits a) cs.
Proof. intros Ht. cbn [visits]. by rewrite bool_decide_eq_true_2. Qed.

(** C2, amended: in the article with ordinal 1, when the expression
    named "Euro" is the first expression among the article's child nodes
    and the expression named "Sub" the first expression among the child
    nodes of that one, and both carry a non-empty [value], the article's
    content contains their two input-text records, the outer with "1.1"
    and, after it, the nested one with "1.2".  Text, other elements and
    later expressions around them, children of the nested expression and
    the letter case of the tag names make no difference. *)
Theorem nested_expression_valued (xml : Document) (h : Heap)
    (ta t1 t2 : string) (title outer inner : NamedNodeMap)
    (pre post pre1 post1 cs2 : list Node) (v1 v2 : string) :
  getElementsByTagName "article" xml !! 0
    = Some (Element ta title
              (pre ++ Element t1 outer (pre1 ++ Element t2 inner cs2 :: post1) :: post)) ->
  toLowerCase t1 = "e" -> toLowerCase t2 = "e" ->
  Forall (fun n => tagOf n <> "e") pre ->
  Forall (fun n => tagOf n <> "e") pre1 ->
  outer !! "name" = Some "Euro" -> inner !! "name" = Some "Sub" ->
  outer !! "value" = Some v1 -> v1 <> "" ->
  inner !! "value" = Some v2 -> v2 <> "" ->
  exists a r1 r2 before between after,
    issue_articles (run (parse xml) h) !! 0 = Some a
    /\ content a = before ++ r1 :: between ++ r2 :: after
    /\ display r1 = I_TEXT /\ field "ref" r1 = Some "Euro"
    /\ value r1 = Some v1 /\ displayId r1 = "1.1"
    /\ display r2 = I_TEXT /\ field "ref" r2 = Some "Sub"
    /\ value r2 = Some v2 /\ displayId r2 = "1.2".
Proof.
  intros Hart Ht1 Ht2 Hpre Hpre1 Hn1 Hn2 Hv1 Hne1 Hv2 Hne2.
  pose (inner_el := Element t2 inner cs2).
  pose (outer_el := Element t1 outer (pre1 ++ inner_el :: post1)).
  pose (article := Element ta title (pre ++ outer_el :: post)).
  pose (L0 := flat_map (visits title) pre).
  pose (F1 := flat_map (visits outer) pre1).
  pose (R2 := flat_map (visits inner) cs2 ++ flat_map (visits outer) post1
               ++ flat_map (visits title) post).
  assert (Htr : traversal article
                = (L0 ++ (outer_el, title) :: F1) ++ (inner_el, outer) :: R2).
  { unfold traversal, article, outer_el, inner_el, L0, F1, R2.
    cbn [attributes childNodes].
    rewrite flat_map_app. cbn [flat_map].
    rewrite (visits_expression t1) by done. rewrite flat_map_app. cbn [flat_map].
    rewrite (visits_expression t2) by done.
    repeat (rewrite <- app_assoc || rewrite <- app_comm_cons). reflexivity. }
  assert (Htr' : traversal article
                 = L0 ++ (outer_el, title) :: (F1 ++ (inner_el, outer) :: R2))
    by (by rewrite Htr, <- app_assoc).
  assert (H0 : occurrences "e" L0 = 0) by (by apply occurrences_not_expression).
  assert (HF : occurrences "e" F1 = 0) by (by apply occurrences_not_expression).
  assert (Hk1 : caseOf outer_el = Some Tag_Expression) by (cbn; by rewrite Ht1).
  assert (Hk2 : caseOf inner_el = Some Tag_Expression) by (cbn; by rewrite Ht2).
  pose proof (run_middle 1 L0 (outer_el, title) (F1 ++ (inner_el, outer) :: R2)
                empty_context Tag_Expression Hk1) as Hr1.
  pose proof (run_middle 1 (L0 ++ (outer_el, title) :: F1) (inner_el, outer) R2
                empty_context Tag_Expression Hk2) as Hr2.
  rewrite <- Htr' in Hr1. rewrite <- Htr in Hr2.
  assert (Ho1 : occurrences "e" (L0 ++ [(outer_el, title)]) = 1).
  { rewrite occurrences_app, H0, occurrences_cons. cbn [fst].
    change (tagOf outer_el) with (toLowerCase t1). by rewrite Ht1, decide_True. }
  assert (Ho2 : occurrences "e" ((L0 ++ (outer_el, title) :: F1) ++ [(inner_el, outer)]) = 2).
  { rewrite !occurrences_app, H0, !occurrences_cons, HF. cbn [fst].
    change (tagOf outer_el) with (toLowerCase t1).
    change (tagOf inner_el) with (toLowerCase t2).
    by rewrite Ht1, Ht2, !decide_True. }
  rewrite <- walk_visits in Hr1, Hr2. cbn [fst snd] in Hr1, Hr2.
  change (tagOf outer_el) with (toLowerCase t1) in Hr1.
  change (tagOf inner_el) with (toLowerCase t2) in Hr2.
  rewrite Ht1, Ho1 in Hr1. rewrite Ht2, Ho2 in Hr2.
  change (displayIdOf 1 _) with "1.1" in Hr1. change (displayIdOf 1 _) with "1.2" in Hr2.
  cbn [empty_context stack length Nat.add] in Hr1, Hr2.
  match type of Hr1 with _ !! ?i = _ => match type of Hr2 with _ !! ?i' = _ =>
    assert (Hlt : i < i') end end.
  { rewrite filter_app, length_app.
    rewrite filter_cons_True by (unfold recognized; cbn [fst]; eauto). cbn. lia. }
  destruct (lookup_two _ _ _ _ _ Hr1 Hr2 Hlt) as (s1 & s2 & s3 & Hs).
  eexists _, _, _, _, _, _. split; [by apply issue_article|].
  unfold articleOf. cbn [content]. change (0 + 1) with 1.
  unfold article, outer_el, inner_el in Hs. rewrite Hs.
  rewrite filter_app, filter_cons, filter_app, filter_cons.
  cbn [record value outer_el inner_el attributes]. rewrite !fromAttributes_one.
  rewrite (attr_Some "value" outer v1), (attr_Some "value" inner v2) by done.
  rewrite !decide_True by (cbn; first [by destruct v1 | by destruct v2]).
  split; [reflexivity|]. cbn [display value displayId].
  rewrite (attr_Some "name" outer "Euro"), (attr_Some "name" inner "Sub") by done.
  repeat split.
Qed.

Lemma nested_expression_valued_witness :
  exists a r1 r2 before between after,
    issue_articles (run (parse euro_sub_pretty) 0) !! 0 = Some a
    /\ content a = before ++ r1 :: between ++ r2 :: after
    /\ field "ref" r1 = Some "Euro" /\ displayId r1 = "1.1"
    /\ field "ref" r2 = Some "Sub" /\ displayId r2 = "1.2".
Proof.
  destruct (nested_expression_valued euro_sub_pretty 0 "article" "E" "e"
              (attrs [("title", "T")])
              (attrs [("name", "Euro"); ("value", "1 RON = ? EUR")])
              (attrs [("name", "Sub"); ("value", "x")])
              [Text " "; p "intro"] [Element "e" (attrs [("value", "later")]) []]
              [Text " "; p "x"] [Text " "] [p "deep"]
              "1 RON = ? EUR" "x")
    as (a & r1 & r2 & l1 & l2 & l3 & Ha & Hc & _ & Hf1 & _ & Hid1 & _ & Hf2 & _ & Hid2);
    try reflexivity; try discriminate.
  - repeat constructor; discriminate.
  - repeat constructor; discriminate.
  - exists a, r1, r2, l1, l2, l3. repeat split; assumption.
Defined.

(** ** Ignored nodes *)

(** C3, as stated, at an element outside the vocabulary: its visit
    leaves a counter behind. *)
Lemma unknown_tag_counted :
  caseOf note = None
  /\ count (push note ∅ empty_context 1) !! "note" = Some 1
  /\ ~ (forall T, count (push note ∅ empty_context 1) !! T = count empty_context !! T).
Proof.
  split; [reflexivity|]. split; [vm_compute; reflexivity|].
  intros H. specialize (H "note"). vm_compute in H. discriminate.
Qed.

(** C3, amended: a node that is not an element leaves the context as it
    is; an element whose tag is outside the vocabulary adds no record
    and changes no counter but the one kept under its own lower-cased
    tag name, so the counter of every tag of the vocabulary stays as it
    is.  Its own counter it advances by one, unless the name is one the
    counter object inherits ([constructor], [__proto__]): there no
    number is kept, and with none there before the context stays as it
    is. *)
Theorem ignored_node (node : Node) (pa : NamedNodeMap) (ctx : IterContext) (idx : nat) :
  caseOf node = None ->
  stack (push node pa ctx idx) = stack ctx
  /\ (forall T, T <> tagOf node -> count (push node pa ctx idx) !! T = count ctx !! T)
  /\ (forall T k, Tags_case T = Some k -> count (push node pa ctx idx) !! T = count ctx !! T)
  /\ (isElement node = false -> push node pa ctx idx = ctx)
  /\ (isElement node = true -> ~ inherited (tagOf node) ->
       count (push node pa ctx idx) !! tagOf node
         = Some (default 0 (count ctx !! tagOf node) + 1))
  /\ (inherited (tagOf node) -> count ctx !! tagOf node = None ->
       push node pa ctx idx = ctx).
Proof.
  intros Hcase. destruct node as [t a cs|d|d].
  2,3: (repeat split; try done; by intros [|]).
  cbn [caseOf] in Hcase. rewrite push_unrecognized by done.
  cbn [stack count tagOf]. split; [done|]. split; [|split; [|split; [|split]]].
  - intros T HT. by apply advance_lookup_ne.
  - intros T k HT. apply advance_lookup_ne. congruence.
  - discriminate.
  - intros _ Hi. apply advance_lookup_kept. by intros [? _].
  - intros Hi Hn. rewrite advance_dropped by done. by destruct ctx.
Qed.

Lemma ignored_node_witness :
  stack (push note ∅ empty_context 1) = []
  /\ count (push note ∅ empty_context 1) !! "p" = None
  /\ count (push note ∅ empty_context 1) !! "note" = Some 1
  /\ push (Text "n") ∅ empty_context 1 = empty_context
  /\ push (Element "constructor" ∅ []) ∅ empty_context 1 = empty_context.
Proof.
  destruct (ignored_node note ∅ empty_context 1 eq_refl) as (Hs & _ & Hc & _ & Hn & _).
  destruct (ignored_node (Text "n") ∅ empty_context 1 eq_refl) as (_ & _ & _ & Ht & _).
  destruct (ignored_node (Element "constructor" ∅ []) ∅ empty_context 1 eq_refl)
    as (_ & _ & _ & _ & _ & Hi).
  split; [exact Hs|]. split; [exact (Hc "p" Tag_Paragraph eq_refl)|].
  split; [apply (Hn eq_refl); by intros [|]|].
  split; [exact (Ht eq_refl)|]. apply Hi; [by left|reflexivity].
Defined.

(** ** Values of tables and diagrams *)

(** One call of [push] on a table or diagram, given the attribute set
    [pa] it is handed for the parent. *)
Lemma table_diagram_push (t : string) (a : NamedNodeMap) (cs : list Node)
    (pa : NamedNodeMap) (ctx : IterContext) (idx : nat) :
  toLowerCase t = "table" \/ toLowerCase t = "diagram" ->
  exists r,
    stack (push (Element t a cs) pa ctx idx) = stack ctx ++ [r]
    /\ display r = (if decide (toLowerCase t = "table") then O_TABLE else O_DIAGRAM)
    /\ (forall v, a !! "value" = Some v -> v <> "" -> value r = Some v)
    /\ (a !! "value" = None \/ a !! "value" = Some "" ->
        forall v, pa !! "value" = Some v -> v <> "" -> value r = Some v)
    /\ (a !! "value" = None \/ a !! "value" = Some "" ->
        pa !! "value" = None \/ pa !! "value" = Some "" ->
        value r = None).
Proof.
  intros Ht.
  assert (Hk : exists k, Tags_case (toLowerCase t) = Some k
                 /\ (k = Tag_Table \/ k = Tag_Diagram)
                 /\ (toLowerCase t = "table" <-> k = Tag_Table)).
  { destruct Ht as [-> | ->]; eexists; (split; [reflexivity|]); split; eauto;
      split; congruence. }
  destruct Hk as (k & Hk & Hkind & Htab).
  rewrite (push_leaf _ _ _ _ _ _ k) by (destruct Hkind; congruence).
  cbn [stack]. eexists. split; [reflexivity|].
  assert (Hval : value (record k a pa (textContent (Element t a cs))
                    (displayIdOf idx (default 0 (count ctx !! toLowerCase t) + 1)))
                 = fromAttributes "value" [a; pa])
    by (by destruct Hkind; subst k).
  rewrite Hval, fromAttributes_two. split; [|split; [|split]].
  - case_decide as Hd; [apply Htab in Hd; by subst k|].
    destruct Hkind as [->| ->]; [|done]. exfalso. apply Hd. by apply Htab.
  - intros v Hv Hne. by rewrite (attr_Some _ _ v).
  - intros Hown v Hv Hne. unfold attr at 1.
    destruct Hown as [-> | ->]; by rewrite (attr_Some _ _ v).
  - intros Hown Hpar. unfold attr.
    by destruct Hown as [-> | ->], Hpar as [-> | ->].
Qed.

Example table_diagram_push_sample :
  exists r,
    stack (push plain_table (attrs [("value", "Ref. 1")]) empty_context 1) = [r]
    /\ display r = O_TABLE /\ value r = Some "Ref. 1".
Proof.
  destruct (table_diagram_push "table" (attrs [("cols", "ds")]) []
              (attrs [("value", "Ref. 1")]) empty_context 1 (or_introl eq_refl))
    as (r & Hs & Hd & _ & Hp & _).
  exists r. split; [exact Hs|]. split; [exact Hd|].
  apply (Hp (or_introl eq_refl) "Ref. 1" eq_refl). discriminate.
Qed.

(** ** Values of definitions *)

(** C5: the record of a definition element is an input-text record with
    [def] set to "local"; its value is the trimmed text of the element
    when that is not empty, whatever the [value] attribute holds, and
    the non-empty [value] attribute (or nothing) only when the trimmed
    text is empty. *)
Theorem definition_value (t : string) (a : NamedNodeMap) (cs : list Node)
    (pa : NamedNodeMap) (ctx : IterContext) (idx : nat) :
  toLowerCase t = "def" ->
  let text := trim (textContent (Element t a cs)) in
  exists r,
    stack (push (Element t a cs) pa ctx idx) = stack ctx ++ [r]
    /\ display r = I_TEXT
    /\ field "def" r = Some "local"
    /\ (text <> "" -> value r = Some text)
    /\ (text = "" -> value r = attr "value" a).
Proof.
  intros Ht text.
  rewrite (push_leaf _ _ _ _ _ _ Tag_Definition) by (by rewrite ?Ht).
  cbn [stack]. eexists. split; [reflexivity|].
  cbn [record display value]. split; [done|]. split; [done|].
  fold text. rewrite fromAttributes_one. unfold or_else. split.
  - intros Hne. by destruct text.
  - by intros ->.
Qed.

Lemma definition_value_witness :
  exists r,
    stack (push euro_def ∅ empty_context 1) = [r]
    /\ display r = I_TEXT
    /\ field "def" r = Some "local"
    /\ value r = Some "1 RON = ? EUR".
Proof.
  destruct (definition_value "def"
              (attrs [("name", "Euro"); ("type", "exchange"); ("value", "1 RON")])
              [Text " 1 RON = ? EUR "] ∅ empty_context 1 eq_refl)
    as (r & Hs & Hd & Hl & Hv & _).
  exists r. split; [exact Hs|]. split; [exact Hd|]. split; [exact Hl|].
  apply Hv. discriminate.
Defined.

(** ** Where elements are found *)

Lemma elem_of_flat_map {A B} (f : A -> list B) (l : list A) (y : B) :
  y ∈ flat_map f l <-> exists x, x ∈ l /\ y ∈ f x.
Proof.
  rewrite list_elem_of_In, in_flat_map. split.
  - intros (x & Hx & Hy). exists x. by rewrite !list_elem_of_In.
  - intros (x & Hx & Hy). exists x. by rewrite <- !list_elem_of_In.
Qed.

Lemma inTree_elementsByTagName name d n :
  tagName d = Some name -> inTree d n -> d ∈ elementsByTagName name n.
Proof.
  intros Hd. induction 1 as [|t a cs c Hc _ IH].
  - destruct d as [t a cs| |]; [|done..]. cbn in Hd. injection Hd as ->.
    cbn [elementsByTagName]. rewrite decide_True by done. apply list_elem_of_here.
  - cbn [elementsByTagName]. apply elem_of_app. right.
    apply elem_of_flat_map. eauto.
Qed.

Lemma elementsByTagName_inTree name d n :
  d ∈ elementsByTagName name n -> tagName d = Some name /\ inTree d n.
Proof.
  revert d. induction n as [t a cs IH|x|x] using Node_ind_nested; intros d Hd;
    [|by apply not_elem_of_nil in Hd..].
  cbn [elementsByTagName] in Hd. apply elem_of_app in Hd as [Hd|Hd].
  - case_decide as Ht; [|by apply not_elem_of_nil in Hd].
    apply list_elem_of_singleton in Hd. subst. split; [done|constructor].
  - apply elem_of_flat_map in Hd as (c & Hc & Hd).
    rewrite Forall_forall in IH. destruct (IH c Hc d Hd) as [Hn Hin].
    split; [done|]. by apply inTree_below with c.
Qed.

Lemma reaches_visits a cs d pa :
  reaches a cs d pa -> (d, pa) ∈ flat_map (visits a) cs.
Proof.
  induction 1 as [a cs d Hd He|a cs t a' cs' d pa Hc Ht _ IH];
    apply elem_of_flat_map.
  - exists d. split; [done|]. destruct d; [|done..]. apply list_elem_of_here.
  - exists (Element t a' cs'). split; [done|]. cbn [visits].
    rewrite bool_decide_eq_true_2 by done. by apply list_elem_of_further.
Qed.

Lemma visits_reaches_node n :
  forall a d pa, (d, pa) ∈ visits a n ->
  forall l, n ∈ l -> reaches a l d pa.
Proof.
  induction n as [t a0 cs0 IH|x|x] using Node_ind_nested;
    intros a d pa Hv l Hl; [|by apply not_elem_of_nil in Hv..].
  cbn [visits] in Hv. apply elem_of_cons in Hv as [Hv|Hv].
  - injection Hv as -> ->. by constructor.
  - case_bool_decide as Ht; [|by apply not_elem_of_nil in Hv].
    apply elem_of_flat_map in Hv as (c & Hc & Hv).
    rewrite Forall_forall in IH.
    eapply reaches_nested; [exact Hl|exact Ht|]. by apply (IH c Hc).
Qed.

Lemma visits_reaches a cs d pa :
  (d, pa) ∈ flat_map (visits a) cs -> reaches a cs d pa.
Proof.
  intros Hin. apply elem_of_flat_map in Hin as (c & Hc & Hin).
  by apply visits_reaches_node with c.
Qed.

(** A visited element is a child node of the article or of an element
    below it, and is visited with that parent's attribute set. *)
Lemma reaches_parent a cs d pa :
  reaches a cs d pa ->
  forall top, attributes top = a -> childNodes top = cs ->
  exists parent,
    inTree parent top /\ d ∈ childNodes parent /\ pa = attributes parent.
Proof.
  induction 1 as [a cs d Hd He|a cs t a' cs' d pa Hc Ht _ IH]; intros top Ha Hcs.
  - exists top. subst. repeat split; [constructor|done].
  - destruct (IH (Element t a' cs') eq_refl eq_refl) as (parent & Hin & Hd & Hpa).
    exists parent. split; [|done].
    destruct top as [t0 a0 cs0| |]; cbn in Hcs; subst;
      [|by apply not_elem_of_nil in Hc..].
    by apply inTree_below with (Element t a' cs').
Qed.

(** The record of a reached element is on the article's stack. *)
Lemma reached_on_stack article idx d pa k :
  reaches (attributes article) (childNodes article) d pa ->
  caseOf d = Some k ->
  exists n,
    1 <= n
    /\ record k (attributes d) pa (textContent d) (displayIdOf idx n)
         ∈ stack (walk article idx).
Proof.
  intros Hr Hk. apply reaches_visits in Hr. fold (traversal article) in Hr.
  apply list_elem_of_lookup in Hr as [i Hi].
  exists (occurrences (tagOf d) (take (S i) (traversal article))). split.
  - rewrite (take_S_r _ _ _ Hi), occurrences_app, occurrences_cons.
    rewrite decide_True by done. lia.
  - eapply list_elem_of_lookup_2. by apply walk_lookup.
Qed.

(** ** Terminology *)

Lemma issue_terminology_defs xml h :
  issue_terminology (run (parse xml) h)
  = terminologyOf <$> getElementsByTagName "def" xml.
Proof. by rewrite parse_issueOf. Qed.

Lemma terminology_entry xml h d :
  tagName d = Some "def" ->
  inTree d (firstElementChild xml) ->
  terminologyOf d ∈ issue_terminology (run (parse xml) h).
Proof.
  intros Hd Hin. rewrite issue_terminology_defs.
  apply list_elem_of_fmap_2. by apply inTree_elementsByTagName.
Qed.

(** The record of a [def] element reached in the article at position
    [j]. *)
Lemma definition_in_article xml h d j article pa :
  tagName d = Some "def" ->
  getElementsByTagName "article" xml !! j = Some article ->
  reaches (attributes article) (childNodes article) d pa ->
  exists a n,
    let r := record Tag_Definition (attributes d) pa (textContent d)
               (displayIdOf (j + 1) n) in
    issue_articles (run (parse xml) h) !! j = Some a
    /\ r ∈ stack (walk article (j + 1))
    /\ (truthy (value r) = true -> r ∈ content a).
Proof.
  intros Hd Hj Hr.
  assert (Hk : caseOf d = Some Tag_Definition).
  { destruct d as [t a cs| |]; [|done..]. cbn in Hd. by injection Hd as ->. }
  destruct (reached_on_stack article (j + 1) d pa Tag_Definition Hr Hk) as (n & _ & Hn).
  exists (articleOf (j + 1) article), n. cbn zeta.
  split; [by apply issue_article|]. split; [done|].
  intros Hv. by apply kept_in_content.
Qed.


(** C10: for a [def] element with a non-empty trimmed text and a
    [value] attribute, the terminology entry takes its value from the
    attribute alone, while the record of the element in an article takes
    the trimmed text; the two differ whenever the trimmed text differs
    from the attribute. *)
Theorem terminology_value_from_attribute (xml : Document) (h : Heap) (d : Node)
    (v : string) :
  tagName d = Some "def" ->
  inTree d (firstElementChild xml) ->
  trim (textContent d) <> "" ->
  attributes d !! "value" = Some v ->
  exists t,
    t ∈ issue_terminology (run (parse xml) h)
    /\ name t = attr "name" (attributes d)
    /\ term_value t = (if decide (v = "") then None else Some v)
    /\ forall j article pa,
         getElementsByTagName "article" xml !! j = Some article ->
         reaches (attributes article) (childNodes article) d pa ->
         exists a r,
           issue_articles (run (parse xml) h) !! j = Some a
           /\ r ∈ content a
           /\ field "ref" r = name t
           /\ value r = Some (trim (textContent d))
           /\ (trim (textContent d) <> v -> value r <> term_value t).
Proof.
  intros Hd Hin Htext Hv.
  exists (terminologyOf d). split; [by apply terminology_entry|].
  unfold terminologyOf. cbn [name term_value]. rewrite !fromAttributes_one.
  split; [done|]. split.
  { unfold attr. rewrite Hv. case_decide; [by subst|by destruct v]. }
  intros j article pa Hj Hr.
  destruct (definition_in_article xml h d j article pa Hd Hj Hr)
    as (a & n & Ha & _ & Hc). cbn zeta in Hc.
  assert (Hval : value (record Tag_Definition (attributes d) pa (textContent d)
                          (displayIdOf (j + 1) n)) = Some (trim (textContent d))).
  { cbn [record value]. unfold or_else. by destruct (trim (textContent d)). }
  exists a. eexists. split; [exact Ha|]. split.
  { apply Hc. rewrite Hval. by destruct (trim (textContent d)). }
  split; [exact (fromAttributes_one "name" (attributes d))|]. split; [exact Hval|].
  rewrite Hval. intros Hne. unfold attr. rewrite Hv.
  destruct v; [done|]. congruence.
Qed.

Lemma terminology_value_from_attribute_witness :
  exists t a r,
    t ∈ issue_terminology (run (parse glossary) 0)
    /\ term_value t = Some "1 RON"
    /\ issue_articles (run (parse glossary) 0) !! 0 = Some a
    /\ r ∈ content a
    /\ field "ref" r = name t
    /\ value r = Some "1 RON = ? EUR".
Proof.
  destruct (terminology_value_from_attribute glossary 0 euro_def "1 RON" eq_refl)
    as (t & Ht & _ & Hv & Hart).
  { eapply inTree_below; [apply list_elem_of_further, list_elem_of_here|].
    eapply inTree_below; [apply list_elem_of_here|constructor]. }
  { discriminate. }
  { reflexivity. }
  destruct (Hart 0 euro_article (attrs [("title", "T")]) eq_refl)
    as (a & r & Ha & Hr & Hn & Hval & _).
  { constructor; [apply list_elem_of_here|reflexivity]. }
  exists t, a, r. repeat split; assumption.
Defined.

(** ** The two collections *)

Example twins_issue :
  iterEach new_Parser twins 0 =
    ({| articles := [(0, {| title := Some "T"; content := [] |});
                     (1, {| title := Some "T"; content := [] |})];
        terminology := [(2, {| name := Some "n"; term_value := Some "v" |});
                        (3, {| name := Some "n"; term_value := Some "v" |})] |}, 4)
  /\ issue_articles (run (parse twins) 0)
       = [ {| title := Some "T"; content := [] |};
           {| title := Some "T"; content := [] |} ]
  /\ issue_terminology (run (parse twins) 0)
       = [ {| name := Some "n"; term_value := Some "v" |};
           {| name := Some "n"; term_value := Some "v" |} ].
Proof. repeat split; vm_compute; reflexivity. Qed.

(** C7: the parser's two sets end up holding one object per [article]
    element and one per [def] element, in document order, each under an
    identity of its own, however alike their contents are; the arrays of
    the issue list them in that order, so nothing is merged. *)
Theorem collections_keep_every_entry (xml : Document) (h : Heap) :
  let this := (iterEach new_Parser xml h).1 in
  let arts := getElementsByTagName "article" xml in
  let defs := getElementsByTagName "def" xml in
  Array_from (articles this) = imap (fun k el => articleOf (k + 1) el) arts
  /\ Array_from (terminology this) = terminologyOf <$> defs
  /\ NoDup (articles this).*1
  /\ NoDup (terminology this).*1
  /\ issue_articles (run (parse xml) h) = Array_from (articles this)
  /\ issue_terminology (run (parse xml) h) = Array_from (terminology this)
  /\ length (issue_articles (run (parse xml) h)) = length arts
  /\ length (issue_terminology (run (parse xml) h)) = length defs.
Proof.
  intros this arts defs.
  assert (Ha : Array_from (articles this) = imap (fun k el => articleOf (k + 1) el) arts).
  { subst this. rewrite iterEach_new. cbn zeta. cbn [fst articles].
    unfold Array_from. apply fmap_snd_imap. }
  assert (Ht : Array_from (terminology this) = terminologyOf <$> defs).
  { subst this. rewrite iterEach_new. cbn zeta. cbn [fst terminology].
    unfold Array_from. rewrite fmap_snd_imap. subst defs.
    induction (getElementsByTagName "def" xml); [done|]. cbn. by f_equal. }
  split; [exact Ha|]. split; [exact Ht|]. split; [|split].
  - subst this. rewrite iterEach_new. cbn zeta. cbn [fst articles].
    apply imap_refs_NoDup.
  - subst this. rewrite iterEach_new. cbn zeta. cbn [fst terminology].
    apply imap_refs_NoDup.
  - rewrite Ha, Ht, parse_issueOf. unfold issueOf. cbn [issue_articles issue_terminology].
    repeat split; [by rewrite length_imap | by rewrite length_fmap].
Qed.

(** ** Kept records *)

(** C8: a record in the content of an article of the issue has a
    non-empty string for value; the content is what is left of the
    article's stack once the records without a truthy value are
    dropped. *)
Theorem content_values_truthy (xml : Document) (h : Heap) (a : Article) (r : Content) :
  a ∈ issue_articles (run (parse xml) h) ->
  r ∈ content a ->
  (exists v, value r = Some v /\ v <> "")
  /\ exists j el,
       getElementsByTagName "article" xml !! j = Some el
       /\ content a = filter (fun c => truthy (value c)) (stack (walk el (j + 1)))
       /\ r ∈ stack (walk el (j + 1))
       /\ forall c, c ∈ stack (walk el (j + 1)) ->
            truthy (value c) = false -> c ∉ content a.
Proof.
  intros Ha Hr. rewrite parse_issueOf in Ha. unfold issueOf in Ha.
  cbn [issue_articles] in Ha.
  apply elem_of_lookup_imap in Ha as (j & el & -> & Hj).
  unfold articleOf in Hr |- *. cbn [content] in Hr |- *.
  pose proof Hr as Hr'. apply list_elem_of_filter in Hr' as [Hv Hin].
  split.
  - destruct (value r) as [[|c v]|]; [done| |done]. by eexists.
  - exists j, el. repeat split; try done.
    intros c _ Hc Hc'. apply list_elem_of_filter in Hc' as [Hc' _].
    by rewrite Hc in Hc'.
Qed.

Lemma content_values_truthy_witness :
  exists a r,
    a ∈ issue_articles (run (parse (issue [hello_article])) 0)
    /\ r ∈ content a
    /\ exists v, value r = Some v /\ v <> "".
Proof.
  pose (r := {| extra := []; value := Some "Hello"; display := P_TEXT; displayId := "1.1" |}).
  pose (a := {| title := Some "T"; content := [r] |}).
  exists a, r.
  assert (Ha : a ∈ issue_articles (run (parse (issue [hello_article])) 0))
    by apply list_elem_of_here.
  assert (Hr : r ∈ content a) by apply list_elem_of_here.
  split; [exact Ha|]. split; [exact Hr|].
  exact (proj1 (content_values_truthy (issue [hello_article]) 0 a r Ha Hr)).
Defined.

(** ** Runs of [parse] *)

(** C9: the issue [parse] yields for a document does not depend on the
    identities in use, so a second run on the same document, started
    where the first one ended, yields the same issue, field for field. *)
Theorem parse_twice (xml : Document) (h h' : Heap) :
  run (parse xml) h = run (parse xml) h'
  /\ (let (first, h1) := parse xml h in
      let (second, _) := parse xml h1 in
      first = second).
Proof.
  split; [by rewrite !parse_issueOf|].
  pose proof (parse_issueOf xml h) as H1. unfold run in H1.
  destruct (parse xml h) as [first h1]. cbn in H1.
  pose proof (parse_issueOf xml h1) as H2. unfold run in H2.
  destruct (parse xml h1) as [second h2]. cbn in H2. congruence.
Qed.

(** * Further properties of the reader *)

(** ** [fromAttributes] over any number of sources *)

Lemma fromAttributes_cons key (a : NamedNodeMap) rest :
  fromAttributes key (a :: rest) =
    match attr key a with
    | Some v => Some v
    | None => fromAttributes key rest
    end.
Proof. unfold attr. cbn. by destruct (a !! key) as [[|c s]|]. Qed.

Lemma attr_None_lacks key (a : NamedNodeMap) : attr key a = None <-> lacks key a.
Proof.
  unfold attr, lacks. destruct (a !! key) as [[|c s]|]; intuition congruence.
Qed.

Lemma attr_Some_inv key (a : NamedNodeMap) v :
  attr key a = Some v <-> a !! key = Some v /\ v <> "".
Proof.
  unfold attr. destruct (a !! key) as [[|c s]|]; intuition congruence.
Qed.

Example fromAttributes_sample :
  fromAttributes "value" [own_empty; parent_set] = Some "Ref. 1"
  /\ fromAttributes "cols" [own_empty; parent_set] = Some "ds"
  /\ fromAttributes "max" [own_empty; parent_set] = None
  /\ fromAttributes "value" [] = None.
Proof. repeat split; reflexivity. Qed.

(** X1: [fromAttributes] yields [v] exactly when some source holds the
    non-empty value [v] under the key and every source before it has no
    non-empty value there: the first hit wins, in the order given. *)
Theorem fromAttributes_first_hit (key : string) (sources : list NamedNodeMap) (v : string) :
  fromAttributes key sources = Some v <->
  exists i a,
    sources !! i = Some a
    /\ a !! key = Some v /\ v <> ""
    /\ forall j b, j < i -> sources !! j = Some b -> lacks key b.
Proof.
  induction sources as [|a rest IH].
  - split; [done|]. by intros (i & b & Hi & _).
  - rewrite fromAttributes_cons. destruct (attr key a) as [w|] eqn:Ha.
    + apply attr_Some_inv in Ha as [Ha Hw]. split.
      * intros [= <-]. exists 0, a. repeat split; try done. intros j b Hj. lia.
      * intros ([|i] & b & Hi & Hb & Hv & Hbefore).
        -- cbn in Hi. injection Hi as <-. congruence.
        -- destruct (Hbefore 0 a) as [Hn|Hn]; [lia|done|congruence|congruence].
    + apply attr_None_lacks in Ha. rewrite IH. split.
      * intros (i & b & Hi & Hb & Hv & Hbefore). exists (S i), b.
        repeat split; try done. intros [|j] c Hj Hc.
        -- cbn in Hc. by injection Hc as <-.
        -- apply (Hbefore j c); [lia|done].
      * intros ([|i] & b & Hi & Hb & Hv & Hbefore).
        -- cbn in Hi. injection Hi as <-. destruct Ha; congruence.
        -- exists i, b. repeat split; try done. intros j c Hj Hc.
           apply (Hbefore (S j) c); [lia|done].
Qed.

(** X2: [fromAttributes] never yields the empty string, and it yields
    [undefined] exactly when no source has a non-empty value under the
    key (so also when there is no source at all). *)
Theorem fromAttributes_undefined (key : string) (sources : list NamedNodeMap) :
  fromAttributes key sources <> Some ""
  /\ (fromAttributes key sources = None <-> Forall (lacks key) sources).
Proof.
  induction sources as [|a rest [IH1 IH2]].
  - split; [done|]. split; [constructor|done].
  - rewrite fromAttributes_cons. destruct (attr key a) as [w|] eqn:Ha.
    + apply attr_Some_inv in Ha as [Ha Hw]. split; [congruence|].
      split; [done|]. intros Hall. apply Forall_cons in Hall as [[Hn|Hn] _]; congruence.
    + split; [done|]. rewrite IH2. apply attr_None_lacks in Ha.
      split; [by constructor|]. by intros [_ ?]%Forall_cons.
Qed.

(** ** Positions among the visits *)

Section Positions.
Context {A : Type} (P : A -> Prop) `{!forall x, Decision (P x)}.

(** The [j]th element of the list that satisfies [P]. *)
Lemma filter_position (l : list A) : forall j,
  j < length (filter P l) ->
  exists i v, l !! i = Some v /\ P v /\ length (filter P (take i l)) = j.
Proof.
  induction l as [|x l IH]; intros j Hj; [cbn in Hj; lia|].
  destruct (decide (P x)) as [Hx|Hx].
  - rewrite filter_cons_True in Hj by done. destruct j as [|j].
    + exists 0, x. by repeat split.
    + destruct (IH j) as (i & v & Hi & Hv & Hlen); [cbn in Hj; lia|].
      exists (S i), v. repeat split; try done.
      cbn [take]. rewrite filter_cons_True by done. cbn. by rewrite Hlen.
  - rewrite filter_cons_False in Hj by done.
    destruct (IH j Hj) as (i & v & Hi & Hv & Hlen).
    exists (S i), v. repeat split; try done.
    cbn [take]. by rewrite filter_cons_False.
Qed.

Lemma filter_take_le (l : list A) i i' :
  i <= i' -> length (filter P (take i l)) <= length (filter P (take i' l)).
Proof.
  intros Hle. replace i' with (i + (i' - i)) by lia.
  rewrite <- take_take_drop, filter_app, length_app. lia.
Qed.

Lemma filter_take_all (l : list A) i :
  length (filter P (take i l)) <= length (filter P l).
Proof.
  rewrite <- (take_drop i l) at 2. rewrite filter_app, length_app. lia.
Qed.

Lemma filter_take_lt (l : list A) i i' v :
  l !! i = Some v -> P v -> i < i' ->
  length (filter P (take i l)) < length (filter P (take i' l)).
Proof.
  intros Hi Hv Hlt.
  pose proof (filter_take_le l (S i) i' ltac:(lia)) as Hle.
  rewrite (take_S_r l i v Hi), filter_app, length_app in Hle.
  rewrite (filter_cons_True _ v []) in Hle by done. cbn in Hle. lia.
Qed.

End Positions.

Lemma caseOf_tagOf n : caseOf n = Tags_case (tagOf n).
Proof. by destruct n. Qed.

Lemma slot_lt l i i' v :
  l !! i = Some v -> recognized v -> i < i' -> slot l i < slot l i'.
Proof. apply filter_take_lt. Qed.

Lemma occurrences_take_le T l i :
  occurrences T (take i l) <= occurrences T l.
Proof. apply (filter_take_all (fun v => tagOf v.1 = T)). Qed.

Lemma occurrences_take_lt T l i i' v' :
  l !! i' = Some v' -> tagOf v'.1 = T -> i < i' ->
  occurrences T (take (S i) l) < occurrences T (take (S i') l).
Proof.
  intros Hi' HT Hlt. unfold occurrences.
  pose proof (filter_take_le (fun w => tagOf w.1 = T) l (S i) i' ltac:(lia)).
  pose proof (filter_take_lt (fun w => tagOf w.1 = T) l i' (S i') v' Hi' HT ltac:(lia)).
  lia.
Qed.

(** Every record on the stack after a run of [step] was either there
    before or is the record of one of the visits. *)
Lemma walk_lookup_inv article idx j r :
  stack (walk article idx) !! j = Some r ->
  exists i el pa k,
    traversal article !! i = Some (el, pa)
    /\ caseOf el = Some k
    /\ j = slot (traversal article) i
    /\ r = record k (attributes el) pa (textContent el)
            (displayIdOf idx (occurrences (tagOf el) (take (S i) (traversal article)))).
Proof.
  intros Hj. pose proof (lookup_lt_Some _ _ _ Hj) as Hlt.
  rewrite walk_length in Hlt.
  destruct (filter_position recognized _ _ Hlt) as (i & [el pa] & Hi & [k Hk] & Hpos).
  exists i, el, pa, k. cbn in Hk. repeat split; try done.
  pose proof (walk_lookup article idx i el pa k Hi Hk) as Hr.
  rewrite Hpos, Hj in Hr. by injection Hr.
Qed.

Lemma string_app_inv_head (s t1 t2 : string) : s +:+ t1 = s +:+ t2 -> t1 = t2.
Proof. induction s as [|c s IH]; cbn; [done|]. intros [= H]. by apply IH. Qed.

(** ** What [push] leaves behind *)

(** X3: whatever the node, [push] keeps the records that were on the
    stack, in place, and appends one record per visited element of the
    vocabulary; no counter goes down: each grows by the number of visits
    to its tag, except that under a name the counter object inherits
    ([constructor], [__proto__]) no number appears where there was
    none. *)
Theorem push_appends (node : Node) (pa : NamedNodeMap) (ctx : IterContext) (idx : nat) :
  exists suffix,
    stack (push node pa ctx idx) = stack ctx ++ suffix
    /\ length suffix = length (filter recognized (visits pa node))
    /\ forall T,
         (kept T (count ctx) ->
          default 0 (count (push node pa ctx idx) !! T)
          = default 0 (count ctx !! T) + occurrences T (visits pa node))
         /\ (inherited T -> count ctx !! T = None ->
             count (push node pa ctx idx) !! T = None).
Proof.
  rewrite push_visits.
  destruct (run_stack idx (visits pa node) ctx) as (suffix & Hs & Hlen).
  exists suffix. split; [done|]. split; [done|]. intros T. split.
  - apply run_count.
  - apply run_dropped.
Qed.

(** ** Content records and the elements they come from *)

(** X4: every record in the content of the article at position [j]
    is the record of an element reached in that article, of a tag of the
    vocabulary, and carries the identifier "j+1.n" for some [n] between
    1 and the number of elements of that tag visited in the article:
    no record is made up, and none leaks in from another article. *)
Theorem content_from_elements (xml : Document) (h : Heap) (j : nat)
    (article : Node) (a : Article) (r : Content) :
  getElementsByTagName "article" xml !! j = Some article ->
  issue_articles (run (parse xml) h) !! j = Some a ->
  r ∈ content a ->
  exists el pa k n,
    reaches (attributes article) (childNodes article) el pa
    /\ caseOf el = Some k
    /\ 1 <= n <= occurrences (tagOf el) (traversal article)
    /\ r = record k (attributes el) pa (textContent el) (displayIdOf (j + 1) n).
Proof.
  intros Hj Ha Hr. rewrite (issue_article xml h j article Hj) in Ha.
  injection Ha as <-. unfold articleOf in Hr. cbn [content] in Hr.
  apply list_elem_of_filter in Hr as [_ Hr].
  apply list_elem_of_lookup in Hr as [pos Hpos].
  destruct (walk_lookup_inv _ _ _ _ Hpos) as (i & el & pa & k & Hi & Hk & _ & ->).
  exists el, pa, k, (occurrences (tagOf el) (take (S i) (traversal article))).
  split; [|split; [done|split; [|done]]].
  - apply visits_reaches. eapply list_elem_of_lookup_2, Hi.
  - split; [|apply occurrences_take_le].
    rewrite (take_S_r _ _ _ Hi), occurrences_app, occurrences_cons.
    rewrite decide_True by done. lia.
Qed.

Lemma content_from_elements_witness :
  exists el pa k n,
    reaches (attributes euro_article) (childNodes euro_article) el pa
    /\ caseOf el = Some k
    /\ 1 <= n <= occurrences (tagOf el) (traversal euro_article)
    /\ record Tag_Definition (attributes euro_def) (attrs [("title", "T")])
         (textContent euro_def) "1.1"
       = record k (attributes el) pa (textContent el) (displayIdOf (0 + 1) n).
Proof.
  apply (content_from_elements
           (issue [euro_article]) 0 0 euro_article
           (articleOf 1 euro_article) _ eq_refl eq_refl).
  apply list_elem_of_here.
Defined.

(** X5: within one article, two different visits to elements of the
    same tag of the vocabulary get records with different identifiers,
    and the record of the earlier visit sits lower on the stack. *)
Theorem displayId_unique_per_tag (article : Node) (A i i' : nat)
    (el el' : Node) (pa pa' : NamedNodeMap) (k : Tags) :
  traversal article !! i = Some (el, pa) ->
  traversal article !! i' = Some (el', pa') ->
  caseOf el = Some k ->
  tagOf el' = tagOf el ->
  i < i' ->
  exists r r',
    stack (walk article A) !! slot (traversal article) i = Some r
    /\ stack (walk article A) !! slot (traversal article) i' = Some r'
    /\ slot (traversal article) i < slot (traversal article) i'
    /\ displayId r <> displayId r'.
Proof.
  intros Hi Hi' Hk Htag Hlt.
  assert (Hk' : caseOf el' = Some k) by (by rewrite caseOf_tagOf, Htag, <- caseOf_tagOf).
  eexists _, _. split; [by apply walk_lookup|]. split; [by apply walk_lookup|].
  split.
  - eapply slot_lt; [exact Hi| |exact Hlt]. unfold recognized. cbn. eauto.
  - assert (Hd : forall k0 a0 p0 t0 id0, displayId (record k0 a0 p0 t0 id0) = id0)
      by (by intros []).
    rewrite !Hd. unfold displayIdOf. intros Heq.
    apply string_app_inv_head, string_app_inv_head in Heq.
    apply (inj pretty) in Heq. rewrite Htag in Heq.
    pose proof (occurrences_take_lt (tagOf el) _ i i' (el', pa') Hi' Htag Hlt). lia.
Qed.

Lemma displayId_unique_per_tag_witness :
  exists r r',
    stack (walk hello_article 7) !! 0 = Some r
    /\ stack (walk hello_article 7) !! 1 = Some r'
    /\ displayId r <> displayId r'.
Proof.
  destruct (displayId_unique_per_tag hello_article 7 0 1 (p "Hello") (p "")
              (attrs [("title", "T")]) (attrs [("title", "T")]) Tag_Paragraph
              eq_refl eq_refl eq_refl eq_refl (le_n 1))
    as (r & r' & Hr & Hr' & _ & Hne).
  exists r, r'. split; [exact Hr|]. split; [exact Hr'|exact Hne].
Defined.

(** ** The identifier as a key *)

Lemma dotless_cons c s : dotless (String c s) <-> c <> "."%char /\ dotless s.
Proof.
  unfold dotless, units. cbn [list_ascii_of_string]. rewrite not_elem_of_cons.
  intuition congruence.
Qed.

Lemma pretty_N_go_dotless x : forall s, dotless s -> dotless (pretty_N_go x s).
Proof.
  induction (N.lt_wf_0 x) as [x _ IH]; intros s Hs.
  destruct (decide (x = 0)%N) as [->|Hx]; [by rewrite pretty_N_go_0|].
  rewrite pretty_N_go_step by lia. apply IH.
  - apply N.div_lt; lia.
  - apply dotless_cons. split; [|done].
    unfold pretty_N_char. by repeat case_match.
Qed.

Lemma pretty_nat_dotless (n : nat) : dotless (pretty n).
Proof.
  unfold pretty, pretty_nat, pretty, pretty_N. case_decide.
  - apply dotless_cons. split; [done|]. unfold dotless, units. cbn. apply not_elem_of_nil.
  - apply pretty_N_go_dotless. unfold dotless, units. cbn. apply not_elem_of_nil.
Qed.

Lemma split_at_dot s1 : forall s2 t1 t2,
  dotless s1 -> dotless s2 ->
  s1 +:+ "." +:+ t1 = s2 +:+ "." +:+ t2 -> s1 = s2 /\ t1 = t2.
Proof.
  induction s1 as [|c s1 IH]; intros [|c' s2] t1 t2 H1 H2 Heq; cbn in Heq.
  - by injection Heq.
  - apply dotless_cons in H2 as [Hc _]. injection Heq as Hc' _. congruence.
  - apply dotless_cons in H1 as [Hc _]. injection Heq as Hc' _. congruence.
  - apply dotless_cons in H1 as [_ H1]. apply dotless_cons in H2 as [_ H2].
    injection Heq as -> Heq. destruct (IH s2 t1 t2 H1 H2 Heq) as [-> ->]. done.
Qed.

(** X6: an identifier determines the article ordinal and the count it
    was built from: two identifiers are the same string exactly when
    both numbers agree. *)
Theorem displayIdOf_key (A n B m : nat) :
  displayIdOf A n = displayIdOf B m <-> A = B /\ n = m.
Proof.
  split; [|by intros [-> ->]].
  unfold displayIdOf. intros Heq.
  apply split_at_dot in Heq as [HA Hn]; [|apply pretty_nat_dotless..].
  split; by apply (inj pretty).
Qed.

(** The first visit to a tag that occurs among the visits. *)
Lemma first_visit l v :
  v ∈ l ->
  exists i w, l !! i = Some w /\ tagOf w.1 = tagOf v.1
              /\ occurrences (tagOf v.1) (take (S i) l) = 1.
Proof.
  intros Hv.
  assert (Hpos : 0 < length (filter (fun w => tagOf w.1 = tagOf v.1) l)).
  { assert (Hin : v ∈ filter (fun w => tagOf w.1 = tagOf v.1) l)
      by (by apply list_elem_of_filter).
    destruct (filter (fun w => tagOf w.1 = tagOf v.1) l); [|cbn; lia].
    by apply not_elem_of_nil in Hin. }
  destruct (filter_position _ _ _ Hpos) as (i & w & Hi & Hw & Hlen).
  exists i, w. split; [done|]. split; [done|].
  rewrite (take_S_r _ _ _ Hi), occurrences_app, occurrences_cons.
  rewrite decide_True by done. unfold occurrences. rewrite Hlen. cbn. lia.
Qed.

(** X7: identifiers are not unique across tags: as soon as an article's
    traversal visits elements of two different tags of the vocabulary,
    its stack holds two records, at different places, that both carry
    the identifier "A.1". *)
Theorem displayId_shared_across_tags (article : Node) (A : nat)
    (el el' : Node) (pa pa' : NamedNodeMap) (k k' : Tags) :
  (el, pa) ∈ traversal article ->
  (el', pa') ∈ traversal article ->
  caseOf el = Some k ->
  caseOf el' = Some k' ->
  tagOf el <> tagOf el' ->
  exists j j' r r',
    j <> j'
    /\ stack (walk article A) !! j = Some r
    /\ stack (walk article A) !! j' = Some r'
    /\ displayId r = displayIdOf A 1
    /\ displayId r' = displayIdOf A 1.
Proof.
  intros Hin Hin' Hk Hk' Hne.
  destruct (first_visit _ _ Hin) as (i & [w wp] & Hi & Hw & Hocc). cbn [fst] in *.
  destruct (first_visit _ _ Hin') as (i' & [w' wp'] & Hi' & Hw' & Hocc'). cbn [fst] in *.
  assert (Hkw : caseOf w = Some k) by (by rewrite caseOf_tagOf, Hw, <- caseOf_tagOf).
  assert (Hkw' : caseOf w' = Some k') by (by rewrite caseOf_tagOf, Hw', <- caseOf_tagOf).
  pose proof (walk_lookup article A i w wp k Hi Hkw) as Hr.
  pose proof (walk_lookup article A i' w' wp' k' Hi' Hkw') as Hr'.
  rewrite Hw, Hocc in Hr. rewrite Hw', Hocc' in Hr'.
  assert (Hii : i <> i') by (intros ->; rewrite Hi in Hi'; injection Hi' as -> _; congruence).
  eexists _, _, _, _. split; [|split; [exact Hr|split; [exact Hr'|]]].
  - fold (slot (traversal article) i) (slot (traversal article) i').
    destruct (decide (i < i')).
    + pose proof (slot_lt _ i i' (w, wp) Hi ltac:(unfold recognized; cbn; eauto) ltac:(lia)). lia.
    + pose proof (slot_lt _ i' i (w', wp') Hi' ltac:(unfold recognized; cbn; eauto) ltac:(lia)). lia.
  - split; [by destruct k|by destruct k'].
Qed.

Lemma displayId_shared_across_tags_witness :
  exists j j' r r',
    j <> j'
    /\ stack (walk mixed_article 1) !! j = Some r
    /\ stack (walk mixed_article 1) !! j' = Some r'
    /\ displayId r = "1.1" /\ displayId r' = "1.1".
Proof.
  destruct (displayId_shared_across_tags mixed_article 1
              euro_def (Element "e" (attrs [("name", "Ref. 1"); ("value", "{c = class}")]) [])
              (attrs [("title", "T")]) (attrs [("title", "T")])
              Tag_Definition Tag_Expression)
    as (j & j' & r & r' & Hne & Hr & Hr' & Hid & Hid');
    [apply list_elem_of_here | apply list_elem_of_further, list_elem_of_here
    | reflexivity | reflexivity | discriminate |].
  exists j, j', r, r'. repeat split; assumption.
Defined.

(** ** Nodes between the elements *)

Lemma record_expression_text a pa text text' id :
  record Tag_Expression a pa text id = record Tag_Expression a pa text' id.
Proof. reflexivity. Qed.

(** X8: text, comments and other nodes that are not elements, placed
    among the child nodes of an article or of an expression, change
    neither the records nor the counters: the walk of an article is that
    of its element children, and so is an expression's [push]. *)
Theorem non_elements_skipped (t : string) (a : NamedNodeMap) (cs : list Node)
    (pa : NamedNodeMap) (ctx : IterContext) (idx : nat) :
  walk (Element t a cs) idx = walk (Element t a (filter isElement cs)) idx
  /\ articleOf idx (Element t a cs) = articleOf idx (Element t a (filter isElement cs))
  /\ (toLowerCase t = "e" ->
      push (Element t a cs) pa ctx idx
      = push (Element t a (filter isElement cs)) pa ctx idx).
Proof.
  assert (Hw : walk (Element t a cs) idx = walk (Element t a (filter isElement cs)) idx).
  { unfold walk. cbn [childNodes attributes]. by rewrite pushAll_children. }
  split; [exact Hw|]. split.
  - unfold articleOf. by rewrite Hw.
  - intros Ht. rewrite !push_expression by done. by rewrite pushAll_children.
Qed.

Lemma non_elements_skipped_witness :
  articleOf 1 spaced_article = articleOf 1 mixed_article
  /\ push (Element "e" ∅ [Text "x"; p "y"]) ∅ empty_context 1
     = push (Element "e" ∅ [p "y"]) ∅ empty_context 1.
Proof.
  destruct (non_elements_skipped "article" (attrs [("title", "T")])
              (childNodes spaced_article) ∅ empty_context 1) as (_ & Ha & _).
  destruct (non_elements_skipped "e" ∅ [Text "x"; p "y"] ∅ empty_context 1)
    as (_ & _ & He).
  split; [exact Ha | exact (He eq_refl)].
Defined.

(** ** Letter case of tag names *)

Lemma lowerChar_idem c : lowerChar (lowerChar c) = lowerChar c.
Proof. destruct c as [[] [] [] [] [] [] [] []]; reflexivity. Qed.

Lemma toLowerCase_idem s : toLowerCase (toLowerCase s) = toLowerCase s.
Proof. induction s as [|c s IH]; cbn; [done|]. by rewrite lowerChar_idem, IH. Qed.

(** X9: [push] does not tell tag names apart by letter case: an
    element and the same element with its tag name in lower case leave
    the same context. *)
Theorem push_case_insensitive (t : string) (a : NamedNodeMap) (cs : list Node)
    (pa : NamedNodeMap) (ctx : IterContext) (idx : nat) :
  push (Element t a cs) pa ctx idx = push (Element (toLowerCase t) a cs) pa ctx idx.
Proof.
  rewrite !push_Element. cbn zeta. rewrite toLowerCase_idem. reflexivity.
Qed.

(** X10: the two passes disagree on letter case.  An element whose tag
    name is [def] in another letter case gets a definition record from
    [push], but is not among the elements the terminology is read from;
    a document with no element named exactly [def] has an empty
    terminology. *)
Theorem capital_def_no_terminology (xml : Document) (h : Heap) (t : string)
    (a : NamedNodeMap) (cs : list Node) :
  toLowerCase t = "def" ->
  t <> "def" ->
  (Element t a cs ∉ getElementsByTagName "def" xml)
  /\ (forall pa ctx idx,
        exists r,
          stack (push (Element t a cs) pa ctx idx) = stack ctx ++ [r]
          /\ field "def" r = Some "local")
  /\ ((forall d, inTree d (firstElementChild xml) -> tagName d <> Some "def") ->
      issue_terminology (run (parse xml) h) = []).
Proof.
  intros Ht Hne. split; [|split].
  - intros Hin. apply elementsByTagName_inTree in Hin as [Hn _]. cbn in Hn. congruence.
  - intros pa ctx idx.
    rewrite (push_leaf _ _ _ _ _ _ Tag_Definition) by (by rewrite ?Ht).
    cbn [stack]. by eexists.
  - intros Hnone. rewrite issue_terminology_defs.
    destruct (getElementsByTagName "def" xml) as [|d l] eqn:Hl; [done|].
    assert (Hd : d ∈ getElementsByTagName "def" xml) by (rewrite Hl; apply list_elem_of_here).
    apply elementsByTagName_inTree in Hd as [Hn Hin]. by destruct (Hnone d Hin).
Qed.

Lemma capital_def_no_terminology_witness :
  issue_terminology (run (parse capital) 0) = []
  /\ exists r,
       stack (push capital_def (attrs [("title", "T")]) empty_context 1) = [r]
       /\ field "def" r = Some "local".
Proof.
  destruct (capital_def_no_terminology capital 0 "DEF"
              (attrs [("name", "n"); ("value", "v")]) [Text "d"] eq_refl)
    as (_ & Hpush & Hterm); [discriminate|].
  split.
  - apply Hterm. intros d Hin Hd.
    apply (inTree_elementsByTagName "def") in Hin; [|done].
    vm_compute in Hin. by apply not_elem_of_nil in Hin.
  - apply (Hpush (attrs [("title", "T")]) empty_context 1).
Defined.

(** ** Paragraphs, expressions, scenarios and statements *)

Lemma blank_nil : blank "".
Proof. constructor. Qed.

Lemma blank_cons c s : blank (String c s) <-> isWhiteSpace c = true /\ blank s.
Proof.
  unfold blank, units. cbn [list_ascii_of_string]. split.
  - intros H. by inversion H.
  - intros [? ?]. by constructor.
Qed.

Lemma trimStart_blank s : trimStart s = "" <-> blank s.
Proof.
  induction s as [|c s IH]; cbn [trimStart]; [split; [intros; apply blank_nil|done]|].
  rewrite blank_cons. destruct (isWhiteSpace c) eqn:Hc.
  - rewrite IH. intuition.
  - split; [done|]. by intros [? _].
Qed.

Lemma trimStart_head s c s' :
  trimStart s = String c s' -> isWhiteSpace c = false.
Proof.
  induction s as [|c0 s IH]; cbn [trimStart]; [done|].
  destruct (isWhiteSpace c0) eqn:Hc; [done|]. by intros [= <- _].
Qed.

Lemma trimEnd_head c s : isWhiteSpace c = false -> trimEnd (String c s) <> "".
Proof. intros Hc. cbn [trimEnd]. rewrite Hc. by destruct (trimEnd s). Qed.

Lemma trim_blank s : trim s = "" <-> blank s.
Proof.
  unfold trim. rewrite <- trimStart_blank.
  destruct (trimStart s) as [|c s'] eqn:Hs; [done|].
  split; [|done]. intros He. apply trimEnd_head in He; [done|].
  by eapply trimStart_head.
Qed.

(** X11: a paragraph's record always has a string for value, the
    trimmed text of the element, and no other key; that value is falsy,
    so that the record is dropped from the content, exactly when the
    text is made of white space only (or is empty). *)
Theorem paragraph_value (t : string) (a : NamedNodeMap) (cs : list Node)
    (pa : NamedNodeMap) (ctx : IterContext) (idx : nat) :
  toLowerCase t = "p" ->
  let text := textContent (Element t a cs) in
  exists r,
    stack (push (Element t a cs) pa ctx idx) = stack ctx ++ [r]
    /\ extra r = []
    /\ display r = P_TEXT
    /\ value r = Some (trim text)
    /\ (truthy (value r) = false <-> blank text).
Proof.
  intros Ht text.
  rewrite (push_leaf _ _ _ _ _ _ Tag_Paragraph) by (by rewrite ?Ht).
  cbn [stack]. eexists. split; [reflexivity|].
  cbn [record extra display value]. fold text.
  assert (Hv : Some (trim text) ||| Some "" = Some (trim text)).
  { unfold or_else. by destruct (trim text). }
  rewrite Hv. repeat split; try done.
  - intros Hf. apply trim_blank. destruct (trim text); [done|].
    cbn in Hf. discriminate.
  - intros Hb. apply trim_blank in Hb. by rewrite Hb.
Qed.

Lemma paragraph_value_witness :
  exists r,
    stack (push (p "   ") ∅ empty_context 1) = [r]
    /\ value r = Some "" /\ truthy (value r) = false.
Proof.
  destruct (paragraph_value "p" ∅ [Text "   "] ∅ empty_context 1 eq_refl)
    as (r & Hs & _ & _ & Hv & Hb).
  exists r. split; [exact Hs|]. split; [exact Hv|].
  apply Hb. repeat constructor.
Defined.

Lemma pushAll_appends cs a ctx idx :
  exists suffix, stack (pushAll cs a ctx idx) = stack ctx ++ suffix.
Proof.
  rewrite pushAll_visits
    by (apply Forall_forall; intros c _ pa0 ctx0; apply push_visits).
  destruct (run_stack idx (flat_map (visits a) cs) ctx) as (s & Hs & _). eauto.
Qed.

(** X12: the record of an expression or of a scenario takes its value
    from the element's own [value] attribute and from nothing else:
    neither the text of the element nor the parent's attributes stand
    in, so without a non-empty [value] the record has none.  It is the
    first record the element's [push] adds. *)
Theorem value_from_own_attribute (t : string) (a : NamedNodeMap) (cs : list Node)
    (pa : NamedNodeMap) (ctx : IterContext) (idx : nat) :
  toLowerCase t = "e" \/ toLowerCase t = "scenario" ->
  exists r,
    stack (push (Element t a cs) pa ctx idx) !! length (stack ctx) = Some r
    /\ value r = attr "value" a
    /\ display r = (if decide (toLowerCase t = "e") then I_TEXT else I_FORM)
    /\ field "type" r = attr "type" a
    /\ field "def" r = None.
Proof.
  intros [Ht|Ht].
  - rewrite push_expression by done.
    match goal with |- context [pushAll cs a ?c idx] =>
      destruct (pushAll_appends cs a c idx) as (s & ->) end.
    cbn [stack]. rewrite <- app_assoc, lookup_app_r by lia.
    rewrite Nat.sub_diag. cbn [app lookup list_lookup]. eexists. split; [reflexivity|].
    cbn [record value display]. rewrite Ht, decide_True by done.
    rewrite fromAttributes_one. repeat split; try done.
    exact (fromAttributes_one "type" a).
  - rewrite (push_leaf _ _ _ _ _ _ Tag_Scenario) by (by rewrite ?Ht).
    cbn [stack]. rewrite lookup_app_r by lia. rewrite Nat.sub_diag.
    cbn [lookup list_lookup]. eexists. split; [reflexivity|].
    cbn [record value display]. rewrite Ht, decide_False by done.
    rewrite fromAttributes_one. repeat split; try done.
    exact (fromAttributes_one "type" a).
Qed.

Lemma value_from_own_attribute_witness :
  exists r,
    stack (push (Element "e" (attrs [("name", "Euro")]) [Text "1 RON"])
             (attrs [("value", "Ref. 1")]) empty_context 1) !! 0 = Some r
    /\ value r = None /\ display r = I_TEXT.
Proof.
  destruct (value_from_own_attribute "e" (attrs [("name", "Euro")]) [Text "1 RON"]
              (attrs [("value", "Ref. 1")]) empty_context 1 (or_introl eq_refl))
    as (r & Hr & Hv & Hd & _).
  exists r. split; [exact Hr|]. split; [exact Hv|exact Hd].
Defined.

(** X13: the record of a statement is an output-text record with the
    [action] attribute; its value is the trimmed text of the element
    when that is not empty and the non-empty [value] attribute (or
    nothing) otherwise. *)
Theorem statement_value (t : string) (a : NamedNodeMap) (cs : list Node)
    (pa : NamedNodeMap) (ctx : IterContext) (idx : nat) :
  toLowerCase t = "statement" ->
  let text := trim (textContent (Element t a cs)) in
  exists r,
    stack (push (Element t a cs) pa ctx idx) = stack ctx ++ [r]
    /\ display r = O_TEXT
    /\ field "action" r = attr "action" a
    /\ (text <> "" -> value r = Some text)
    /\ (text = "" -> value r = attr "value" a).
Proof.
  intros Ht text.
  rewrite (push_leaf _ _ _ _ _ _ Tag_Statement) by (by rewrite ?Ht).
  cbn [stack]. eexists. split; [reflexivity|].
  cbn [record display value]. split; [done|].
  split; [exact (fromAttributes_one "action" a)|].
  fold text. rewrite fromAttributes_one. unfold or_else. split.
  - intros Hne. by destruct text.
  - by intros ->.
Qed.

Lemma statement_value_witness :
  exists r,
    stack (push (Element "statement" (attrs [("value", "v")]) [Text " "])
             ∅ empty_context 1) = [r]
    /\ display r = O_TEXT /\ value r = Some "v".
Proof.
  destruct (statement_value "statement" (attrs [("value", "v")]) [Text " "]
              ∅ empty_context 1 eq_refl) as (r & Hs & Hd & _ & _ & Hv).
  exists r. split; [exact Hs|]. split; [exact Hd|]. exact (Hv eq_refl).
Defined.

(** ** What the two collections are read from *)

(** X14: the terminology of the issue holds the entries of the elements
    named [def] found anywhere in the document tree, and nothing else:
    each entry pairs the non-empty [name] and [value] attributes of such
    an element, either being [undefined] when missing or empty. *)
Theorem terminology_exact (xml : Document) (h : Heap) (t : Terminology) :
  t ∈ issue_terminology (run (parse xml) h) <->
  exists d,
    inTree d (firstElementChild xml)
    /\ tagName d = Some "def"
    /\ t = {| name := attr "name" (attributes d);
              term_value := attr "value" (attributes d) |}.
Proof.
  rewrite issue_terminology_defs, list_elem_of_fmap. split.
  - intros (d & -> & Hd). apply elementsByTagName_inTree in Hd as [Hn Hin].
    exists d. split; [done|]. split; [done|].
    unfold terminologyOf. by rewrite !fromAttributes_one.
  - intros (d & Hin & Hn & ->). exists d. split.
    + unfold terminologyOf. by rewrite !fromAttributes_one.
    + by apply inTree_elementsByTagName.
Qed.

(** X15: the articles of the issue are read from the elements named
    [article] found anywhere in the document tree, be it the root, a
    child of the root or an element inside another article: each such
    element has its article in the issue, with its non-empty [title]
    and the kept records of its own walk, and every article of the
    issue is that of such an element. *)
Theorem articles_exact (xml : Document) (h : Heap) :
  (forall el,
     inTree el (firstElementChild xml) -> tagName el = Some "article" ->
     exists j a,
       issue_articles (run (parse xml) h) !! j = Some a
       /\ title a = attr "title" (attributes el)
       /\ content a = filter (fun c => truthy (value c)) (stack (walk el (j + 1))))
  /\ (forall j a,
        issue_articles (run (parse xml) h) !! j = Some a ->
        exists el,
          inTree el (firstElementChild xml) /\ tagName el = Some "article"
          /\ title a = attr "title" (attributes el)
          /\ content a = filter (fun c => truthy (value c)) (stack (walk el (j + 1)))).
Proof.
  split.
  - intros el Hin Hn. apply (inTree_elementsByTagName "article") in Hin; [|done].
    apply list_elem_of_lookup in Hin as [j Hj].
    exists j, (articleOf (j + 1) el). split; [by apply issue_article|].
    split; [exact (fromAttributes_one "title" (attributes el))|done].
  - intros j a Ha. rewrite parse_issueOf in Ha. unfold issueOf in Ha.
    cbn [issue_articles] in Ha. rewrite list_lookup_imap in Ha.
    destruct (getElementsByTagName "article" xml !! j) as [el|] eqn:Hj; [|done].
    cbn in Ha. injection Ha as <-.
    apply list_elem_of_lookup_2, elementsByTagName_inTree in Hj as [Hn Hin].
    exists el. split; [done|]. split; [done|].
    split; [exact (fromAttributes_one "title" (attributes el))|done].
Qed.

Lemma articles_exact_witness :
  exists j a,
    issue_articles (run (parse nested_articles) 0) !! j = Some a
    /\ title a = Some "In"
    /\ content a = filter (fun c => truthy (value c)) (stack (walk inner_article (j + 1))).
Proof.
  apply (proj1 (articles_exact nested_articles 0) inner_article); [|reflexivity].
  eapply inTree_below; [apply list_elem_of_here|].
  eapply inTree_below; [apply list_elem_of_further, list_elem_of_here|constructor].
Defined.

Example nested_articles_issue :
  issue_articles (run (parse nested_articles) 0) =
    [ {| title := Some "Out";
         content := [ {| extra := []; value := Some "a";
                         display := P_TEXT; displayId := "1.1" |} ] |};
      {| title := Some "In";
         content := [ {| extra := []; value := Some "b";
                         display := P_TEXT; displayId := "2.1" |} ] |} ].
Proof. vm_compute. reflexivity. Qed.

(** ** A parser used again *)

Lemma older_imap {A B} h h' (f : nat -> A -> B) (l : list A) :
  h + length l <= h' -> older h' (imap (fun k x => (h + k, f k x)) l).
Proof.
  intros Hle. apply Forall_forall. intros o Ho.
  apply elem_of_lookup_imap in Ho as (k & x & -> & Hk).
  apply lookup_lt_Some in Hk. cbn. lia.
Qed.

Lemma older_fresh_NoDup {A B} h (s : JSSet B) (f : nat -> A -> B) (l : list A) :
  NoDup s.*1 -> older h s ->
  NoDup (s ++ imap (fun k x => (h + k, f k x)) l).*1.
Proof.
  intros Hs Hold. rewrite fmap_app. apply NoDup_app. split; [done|]. split.
  - intros r Hr Hr'. apply list_elem_of_fmap in Hr as (o & -> & Ho).
    apply list_elem_of_fmap in Hr' as (o' & Heq & Ho').
    apply elem_of_lookup_imap in Ho' as (k & x & -> & _).
    unfold older in Hold. rewrite Forall_forall in Hold.
    specialize (Hold o Ho). cbn in Heq, Hold. lia.
  - apply imap_refs_NoDup.
Qed.

(** X16: [iterEach] adds to what the parser holds.  Run on a second
    document with the parser a first run returned, it leaves the first
    document's articles and terminology in place and puts the second
    document's after them, numbered from 1 again, every object under an
    identity of its own. *)
Theorem iterEach_accumulates (xml1 xml2 : Document) (h : Heap) :
  let first := iterEach new_Parser xml1 h in
  let second := iterEach first.1 xml2 first.2 in
  Array_from (articles second.1)
    = issue_articles (run (parse xml1) h) ++ issue_articles (run (parse xml2) first.2)
  /\ Array_from (terminology second.1)
    = issue_terminology (run (parse xml1) h)
        ++ issue_terminology (run (parse xml2) first.2)
  /\ NoDup (articles second.1).*1
  /\ NoDup (terminology second.1).*1.
Proof.
  intros first second. subst second first.
  rewrite iterEach_new. cbn zeta. cbn [fst snd].
  rewrite iterEach_appends; cbn [articles terminology].
  2:{ apply older_imap. lia. }
  2:{ apply older_imap. lia. }
  cbn zeta. cbn [fst articles terminology]. rewrite !parse_issueOf.
  unfold issueOf, Array_from. cbn [issue_articles issue_terminology].
  split; [|split; [|split]].
  - by rewrite fmap_app, !fmap_snd_imap.
  - rewrite fmap_app, !fmap_snd_imap.
    f_equal; (match goal with |- imap _ ?l = _ => induction l; [done|cbn; by f_equal] end).
  - apply older_fresh_NoDup; [apply imap_refs_NoDup | apply older_imap; lia].
  - apply older_fresh_NoDup; [apply imap_refs_NoDup | apply older_imap; lia].
Qed.

(** ** The ordinal of an article *)

Lemma record_reindex k a pa text id id' :
  record k a pa text id' =
    {| extra := extra (record k a pa text id);
       value := value (record k a pa text id);
       display := display (record k a pa text id);
       displayId := id' |}.
Proof. by destruct k. Qed.

(** X17: the ordinal of an article enters its records through the
    identifier only: walked under another ordinal, the same article
    element gives a stack of the same length with, place by place, the
    same keys, value and display kind, and the same count behind the
    other ordinal in the identifier. *)
Theorem ordinal_only_in_displayId (article : Node) (A B j : nat) (r : Content) :
  stack (walk article A) !! j = Some r ->
  length (stack (walk article B)) = length (stack (walk article A))
  /\ exists n,
       1 <= n
       /\ displayId r = displayIdOf A n
       /\ stack (walk article B) !! j
          = Some {| extra := extra r; value := value r; display := display r;
                    displayId := displayIdOf B n |}.
Proof.
  intros Hj. split; [by rewrite !walk_length|].
  destruct (walk_lookup_inv _ _ _ _ Hj) as (i & el & pa & k & Hi & Hk & -> & ->).
  exists (occurrences (tagOf el) (take (S i) (traversal article))). split; [|split].
  - rewrite (take_S_r _ _ _ Hi), occurrences_app, occurrences_cons.
    rewrite decide_True by done. lia.
  - by destruct k.
  - unfold slot. rewrite (walk_lookup article B i el pa k Hi Hk).
    f_equal. apply record_reindex.
Qed.

Lemma ordinal_only_in_displayId_witness :
  exists n,
    displayIdOf 1 n = "1.1"
    /\ stack (walk euro_article 4) !! 0
       = Some {| extra := [("def", Some "local"); ("ref", Some "Euro");
                           ("type", Some "exchange")];
                 value := Some "1 RON = ? EUR";
                 display := I_TEXT;
                 displayId := displayIdOf 4 n |}.
Proof.
  destruct (ordinal_only_in_displayId euro_article 1 4 0
              (record Tag_Definition (attributes euro_def) (attrs [("title", "T")])
                 (textContent euro_def) "1.1") eq_refl)
    as (_ & n & _ & Hid & Hr).
  exists n. split; [symmetry; exact Hid|exact Hr].
Defined.

(** ** Tables and diagrams below their parent *)

(** X18: of a table's or diagram's record only the value can come from
    the parent: every other key is read from the element's own
    attributes, whatever the parent holds. *)
Theorem table_diagram_keys_own (t : string) (a : NamedNodeMap) (cs : list Node)
    (pa : NamedNodeMap) (ctx : IterContext) (idx : nat) :
  toLowerCase t = "table" \/ toLowerCase t = "diagram" ->
  exists r,
    stack (push (Element t a cs) pa ctx idx) = stack ctx ++ [r]
    /\ extra r = (fun key => (key, attr key a))
                   <$> (if decide (toLowerCase t = "table")
                        then table_keys else diagram_keys).
Proof.
  intros [Ht|Ht].
  - rewrite (push_leaf _ _ _ _ _ _ Tag_Table) by (by rewrite ?Ht).
    cbn [stack]. eexists. split; [reflexivity|].
    rewrite Ht, decide_True by done. cbn [record extra table_keys fmap list_fmap].
    by rewrite !fromAttributes_one.
  - rewrite (push_leaf _ _ _ _ _ _ Tag_Diagram) by (by rewrite ?Ht).
    cbn [stack]. eexists. split; [reflexivity|].
    rewrite Ht, decide_False by done. cbn [record extra diagram_keys fmap list_fmap].
    by rewrite !fromAttributes_one.
Qed.

Lemma table_diagram_keys_own_witness :
  exists r,
    stack (push plain_table (attrs [("cols", "abc"); ("max", "10")]) empty_context 1) = [r]
    /\ field "cols" r = Some "ds" /\ field "max" r = None.
Proof.
  destruct (table_diagram_keys_own "table" (attrs [("cols", "ds")]) []
              (attrs [("cols", "abc"); ("max", "10")]) empty_context 1
              (or_introl eq_refl)) as (r & Hs & He).
  exists r. split; [exact Hs|]. unfold field. rewrite He. split; reflexivity.
Defined.

(** X19: a table or diagram without a non-empty [value] of its own,
    reached in an article below a parent (the article itself or an
    expression) whose [value] is not empty, has a record with the
    parent's value, and that record is in the article's content. *)
Theorem value_inherited (xml : Document) (h : Heap) (j : nat) (article d : Node)
    (pa : NamedNodeMap) (v : string) :
  getElementsByTagName "article" xml !! j = Some article ->
  reaches (attributes article) (childNodes article) d pa ->
  tagOf d = "table" \/ tagOf d = "diagram" ->
  lacks "value" (attributes d) ->
  pa !! "value" = Some v ->
  v <> "" ->
  exists a r,
    issue_articles (run (parse xml) h) !! j = Some a
    /\ r ∈ content a
    /\ value r = Some v
    /\ display r = (if decide (tagOf d = "table") then O_TABLE else O_DIAGRAM).
Proof.
  intros Hj Hr Htag Hown Hpa Hv.
  assert (Hk : exists k, caseOf d = Some k /\ (k = Tag_Table \/ k = Tag_Diagram)
                 /\ (tagOf d = "table" <-> k = Tag_Table)).
  { rewrite caseOf_tagOf.
    destruct Htag as [-> | ->]; eexists; (split; [reflexivity|]); split; eauto;
      split; congruence. }
  destruct Hk as (k & Hk & Hkind & Htab).
  destruct (reached_on_stack article (j + 1) d pa k Hr Hk) as (n & _ & Hn).
  assert (Hval : value (record k (attributes d) pa (textContent d) (displayIdOf (j + 1) n))
                 = Some v).
  { assert (Hf : fromAttributes "value" [attributes d; pa] = Some v).
    { rewrite fromAttributes_two.
      apply attr_None_lacks in Hown. rewrite Hown. by apply attr_Some. }
    by destruct Hkind; subst k. }
  exists (articleOf (j + 1) article). eexists.
  split; [by apply issue_article|]. split.
  { apply kept_in_content; [exact Hn|]. rewrite Hval. by destruct v. }
  split; [exact Hval|].
  case_decide as Hd.
  - apply Htab in Hd. by subst k.
  - destruct Hkind as [-> | ->]; [|done]. exfalso. by apply Hd, Htab.
Qed.

Lemma value_inherited_witness :
  exists a r,
    issue_articles (run (parse (issue [ref_table_article])) 0) !! 0 = Some a
    /\ r ∈ content a
    /\ value r = Some "{c = class}"
    /\ display r = O_TABLE.
Proof.
  apply (value_inherited (issue [ref_table_article]) 0 0 ref_table_article plain_table
           (attrs [("name", "Ref. 1"); ("value", "{c = class}")]) "{c = class}").
  - reflexivity.
  - eapply reaches_nested; [apply list_elem_of_here|reflexivity|].
    constructor; [apply list_elem_of_further, list_elem_of_here|reflexivity].
  - left. reflexivity.
  - left. reflexivity.
  - reflexivity.
  - discriminate.
Defined.

(** ** Elements that are not expressions *)

(** X20: only expressions are descended into.  For an element of any
    other tag, the child nodes matter through the text of the element
    alone: two elements with the same tag, attributes and text leave the
    same context, whatever elements their child nodes hold, and at most
    one record is added. *)
Theorem only_expressions_descend (t : string) (a : NamedNodeMap) (cs cs' : list Node)
    (pa : NamedNodeMap) (ctx : IterContext) (idx : nat) :
  toLowerCase t <> "e" ->
  textContent (Element t a cs) = textContent (Element t a cs') ->
  push (Element t a cs) pa ctx idx = push (Element t a cs') pa ctx idx
  /\ length (stack (push (Element t a cs) pa ctx idx)) <= length (stack ctx) + 1.
Proof.
  intros Ht Htext. rewrite !push_Element. cbn zeta. rewrite Htext.
  destruct (Tags_case (toLowerCase t)) as [k|] eqn:Hk.
  - destruct (decide (k = Tag_Expression)) as [->|Hne].
    + by apply Tags_case_expression in Hk.
    + split; [by destruct k|]. destruct k; try done; cbn [stack]; rewrite length_app; cbn; lia.
  - split; [done|]. cbn [stack]. lia.
Qed.

Lemma only_expressions_descend_witness :
  push (Element "p" ∅ [Text "a"; Element "def" (attrs [("name", "n")]) [Text "b"]])
    ∅ empty_context 1
  = push (Element "p" ∅ [Text "ab"]) ∅ empty_context 1.
Proof.
  apply (only_expressions_descend "p" ∅
           [Text "a"; Element "def" (attrs [("name", "n")]) [Text "b"]]
           [Text "ab"] ∅ empty_context 1); [discriminate|reflexivity].
Defined.

(** ** Tables and diagrams in their article *)

Lemma reaches_step a cs e pa d :
  reaches a cs e pa ->
  tagOf e = "e" -> d ∈ childNodes e -> isElement d = true ->
  reaches a cs d (attributes e).
Proof.
  intros He Htag Hd Hel.
  induction He as [a cs e Hin _|a cs t a' cs' e pa Hin Ht _ IH].
  - destruct e as [t a' cs'| |]; [|done..]. cbn in Htag, Hd |- *.
    eapply reaches_nested; [exact Hin|exact Htag|]. by constructor.
  - eapply reaches_nested; [exact Hin|exact Ht|]. by apply IH.
Qed.

Lemma record_value_two k a pa text id :
  k = Tag_Table \/ k = Tag_Diagram ->
  value (record k a pa text id)
  = match attr "value" a with Some v => Some v | None => attr "value" pa end.
Proof. intros [-> | ->]; cbn [record value]; apply fromAttributes_two. Qed.

(** C4: in the article at position [j], a table or diagram element [d]
    that is a child node of [parent], the article itself or an
    expression reached in it, has on the article's stack the record
    built from its own attributes and those of [parent].  The value of
    that record is the element's own [value] attribute when that is
    present and not empty, else the [value] attribute of [parent] when
    that is present and not empty, and it has none otherwise; the record
    is in the article's content exactly when it has a value. *)
Theorem table_diagram_value (xml : Document) (h : Heap) (j : nat)
    (article parent d : Node) :
  getElementsByTagName "article" xml !! j = Some article ->
  parent = article
    \/ (tagOf parent = "e"
        /\ exists pa, reaches (attributes article) (childNodes article) parent pa) ->
  d ∈ childNodes parent ->
  tagOf d = "table" \/ tagOf d = "diagram" ->
  exists a n r,
    issue_articles (run (parse xml) h) !! j = Some a
    /\ r ∈ stack (walk article (j + 1))
    /\ r = record (if decide (tagOf d = "table") then Tag_Table else Tag_Diagram)
             (attributes d) (attributes parent) (textContent d)
             (displayIdOf (j + 1) n)
    /\ display r = (if decide (tagOf d = "table") then O_TABLE else O_DIAGRAM)
    /\ (forall v, attributes d !! "value" = Some v -> v <> "" -> value r = Some v)
    /\ (lacks "value" (attributes d) ->
        forall v, attributes parent !! "value" = Some v -> v <> "" -> value r = Some v)
    /\ (lacks "value" (attributes d) -> lacks "value" (attributes parent) ->
        value r = None)
    /\ (r ∈ content a <-> truthy (value r) = true).
Proof.
  intros Hj Hparent Hd Htag.
  assert (Hel : isElement d = true) by (destruct d; [done|by destruct Htag..]).
  assert (Hr : reaches (attributes article) (childNodes article) d (attributes parent)).
  { destruct Hparent as [->|(He & pa & Hp)]; [by constructor|].
    by apply (reaches_step _ _ parent pa). }
  set (k := if decide (tagOf d = "table") then Tag_Table else Tag_Diagram).
  assert (Hk : caseOf d = Some k /\ (k = Tag_Table \/ k = Tag_Diagram)).
  { rewrite caseOf_tagOf. subst k.
    destruct Htag as [Ht|Ht]; rewrite Ht; [rewrite decide_True by done|
      rewrite decide_False by done]; split; eauto. }
  destruct Hk as [Hk Hkind].
  destruct (reached_on_stack article (j + 1) d (attributes parent) k Hr Hk)
    as (n & _ & Hn).
  exists (articleOf (j + 1) article), n. eexists.
  split; [by apply issue_article|]. split; [exact Hn|]. split; [reflexivity|].
  rewrite record_value_two by done. split; [|split; [|split; [|split]]].
  - subst k. by case_decide.
  - intros v Hv Hne. by rewrite (attr_Some _ _ v).
  - intros Hown v Hv Hne. apply attr_None_lacks in Hown. rewrite Hown.
    by apply attr_Some.
  - intros Hown Hpar. apply attr_None_lacks in Hown, Hpar. by rewrite Hown.
  - rewrite <- (record_value_two k _ _ (textContent d) (displayIdOf (j + 1) n)) by done.
    split.
    + unfold articleOf. cbn [content]. intros Hin.
      apply list_elem_of_filter in Hin as [Hv _]. by apply Is_true_true.
    + by apply kept_in_content.
Qed.

Lemma table_diagram_value_witness :
  exists a n r,
    issue_articles (run (parse (issue [ref_table_article])) 0) !! 0 = Some a
    /\ r = record Tag_Table (attributes plain_table) (attributes ref_expression)
             (textContent plain_table) (displayIdOf 1 n)
    /\ value r = Some "{c = class}"
    /\ r ∈ content a.
Proof.
  destruct (table_diagram_value (issue [ref_table_article]) 0 0 ref_table_article
              ref_expression plain_table eq_refl)
    as (a & n & r & Ha & _ & Hr & _ & _ & Hp & _ & Hc).
  - right. split; [reflexivity|]. exists (attrs [("title", "T")]).
    constructor; [apply list_elem_of_here|reflexivity].
  - apply list_elem_of_further, list_elem_of_here.
  - left. reflexivity.
  - assert (Hv : value r = Some "{c = class}")
      by (apply Hp; [by left|reflexivity|discriminate]).
    exists a, n, r. split; [exact Ha|]. split; [exact Hr|]. split; [exact Hv|].
    apply Hc. by rewrite Hv.
Defined.

(** ** Definitions in their article *)



